(** * notePlayer.js: the 88-key note table and the three note factories

    A shallow embedding of [src/notePlayer.js].  JavaScript Numbers are
    IEEE 754 binary64 values ([spec_float] at precision 53), strings are
    [string]s with one character per code unit, and the console is an
    explicit list of entries returned next to each result. *)

From Stdlib Require Import String Ascii.
From Stdlib Require Import ZArith QArith Qabs Lia List Bool.
From Stdlib Require Import SpecFloat DecimalString.
From Stdlib Require Import Reals Qreals Lra.
Import ListNotations.

Local Open Scope Z_scope.

(** ** JavaScript Numbers *)

Module Number.

Definition number := spec_float.

Definition prec : Z := 53.
Definition emax : Z := 1024.

(** The Number an integer literal or an integer-valued expression
    denotes (rounded to nearest-even when it does not fit). *)
Definition of_Z (z : Z) : number := binary_normalize prec emax z 0 false.

Definition mul : number -> number -> number := SFmul prec emax.
Definition add : number -> number -> number := SFadd prec emax.
Definition sub : number -> number -> number := SFsub prec emax.
Definition div : number -> number -> number := SFdiv prec emax.
Definition abs : number -> number := SFabs.

(** [x < y], [x > y] and [x === y] on Numbers: false as soon as one
    side is NaN, and [-0 === 0]. *)
Definition ltb : number -> number -> bool := SFltb.
Definition gtb (x y : number) : bool := SFltb y x.
Definition eqb : number -> number -> bool := SFeqb.

(** A decimal literal [m / 10^k] whose digits [m] and scale [10^k] are
    both exact Numbers: one correctly rounded division gives the
    correctly rounded literal. *)
Definition decimal (m : Z) (k : Z) : number := div (of_Z m) (of_Z (10 ^ k)).

Definition NaN : number := S754_nan.

(** The exact value of a finite Number; 0 for NaN and the infinities,
    which [is_finite] tells apart. *)
Definition to_Q (x : number) : Q :=
  match x with
  | S754_finite s m e =>
      let n := if s then Z.neg m else Z.pos m in
      if 0 <=? e then inject_Z (n * 2 ^ e) else Qmake n (Z.to_pos (2 ^ (- e)))
  | _ => 0%Q
  end.

Definition is_finite (x : number) : bool :=
  match x with
  | S754_finite _ _ _ | S754_zero _ => true
  | _ => false
  end.

(** The exact value as a real number. *)
Definition to_R (x : number) : R := Q2R (to_Q x).

(** A whole number: a finite Number whose exact value is an integer. *)
Definition whole (x : number) : Prop :=
  is_finite x = true /\ exists z : Z, to_Q x == inject_Z z.

(** A fractional number: a finite Number whose exact value is no integer. *)
Definition fractional (x : number) : Prop :=
  is_finite x = true /\ forall z : Z, ~ to_Q x == inject_Z z.

(** [x % 1]: NaN for NaN and the infinities; otherwise the exact remainder
    of the truncating division by one, which carries the sign of [x] (so
    [-3 % 1] is [-0]).  A finite [x] is [m * 2^e]: when [e] is negative
    the remainder is the low [-e] bits of [m], brought back to the
    canonical exponent. *)
Definition rem_1 (x : number) : number :=
  match x with
  | S754_nan | S754_infinity _ => S754_nan
  | S754_zero s => S754_zero s
  | S754_finite s m e =>
      if 0 <=? e then S754_zero s
      else
        match Z.pos m mod 2 ^ (- e) with
        | Z.pos r =>
            let '(r', e') :=
              shl_align r e (fexp prec emax (Z.pos (digits2_pos r) + e)) in
            S754_finite s r' e'
        | _ => S754_zero s
        end
  end.

End Number.
Import Number.

(** ** Strings *)

(** [s.slice(-1)] and [s.substr(-1,1)]: the last code unit of [s], or the
    empty string. *)
Fixpoint slice_last (s : string) : string :=
  match s with
  | EmptyString => EmptyString
  | String c EmptyString => String c EmptyString
  | String _ rest => slice_last rest
  end.

(** [s.slice(0,2)]: the first two code units of [s], fewer when [s] is
    shorter. *)
Definition slice_0_2 (s : string) : string :=
  match s with
  | String a (String b _) => String a (String b EmptyString)
  | _ => s
  end.

(** ToString of an integer-valued Number, as [+] applies it when the other
    operand is a string. *)
Definition string_of_Z (z : Z) : string := NilZero.string_of_int (Z.to_int z).

(** ** Values, the console and the host *)

(** The values a caller can pass and a field can hold.  Objects of the
    host (audio contexts, audio nodes) are opaque handles. *)
Inductive value :=
| VUndefined
| VNull
| VBool (b : bool)
| VNum (x : number)
| VStr (s : string)
| VObj (o : N).

(** What a [throw] or the engine raises. *)
Inductive thrown :=
| ThrowString (msg : string)
| ThrowStringNumber (msg : string) (x : number) (rest : string)
| TypeError
| HostError (e : value).

(** [console.error(prefix + e)] and [console.warn(msg)]. *)
Inductive console_entry :=
| console_error (prefix : string) (e : thrown)
| console_warn (msg : string).

Definition console := list console_entry.

(** What the code takes from its environment. *)
Record host := mkHost {
  (** the draw of [_.random(0.5,3,true)] *)
  random_duration : number;
  (** [new (window.AudioContext || window.webkitAudioContext)()]: the new
      context, or what evaluating the expression throws *)
  new_AudioContext : thrown + value;
  (** the [destination] property of a host object *)
  destination : N -> value;
  (** ToNumber on strings and objects: the Number, or what the
      conversion throws *)
  ToNumber_host : value -> thrown + number
}.

(** Reading [v.destination]: a TypeError on undefined and null, undefined
    on the other primitives. *)
Definition get_destination (h : host) (v : value) : thrown + value :=
  match v with
  | VUndefined | VNull => inl TypeError
  | VObj o => inr (destination h o)
  | _ => inr VUndefined
  end.

Definition ToNumber (h : host) (v : value) : thrown + number :=
  match v with
  | VUndefined => inr NaN
  | VNull => inr (of_Z 0)
  | VBool b => inr (if b then of_Z 1 else of_Z 0)
  | VNum x => inr x
  | _ => ToNumber_host h v
  end.

(** ** The note table: [notePlayer.getNotesInfo] *)

Module Note.
Record t := mk { keynb : number; freq : number; name : string }.
End Note.

Definition DICT_KEYS : list string :=
  ["A"; "A#"; "B"; "C"; "C#"; "D"; "D#"; "E"; "F"; "F#"; "G"; "G#"]%string.

Definition DICT_OCTAVES : list Z := [0; 1; 2; 3; 4; 5; 6; 7; 8].

(** [25.95654359874657], the starting point for G#-1. *)
Definition FREQ_start : number := decimal 2595654359874657 14.

(** [Math.pow(2, 1/12)].  The language leaves [Math.pow] implementation
    approximated; this is the binary64 value nearest to the twelfth root
    of two, [0x1.0f38f92d97963p+0], as [semitone_nearest] checks. *)
Definition semitone : number := S754_finite false 4771397596969315 (-52).

(** The two globals the callbacks update: [KEYNB] and [FREQ]. *)
Definition counters : Type := number * number.

(** [_(l).map(f).value()] for a callback that reads and writes the
    globals: the elements are visited from left to right. *)
Fixpoint map_st {A B : Type} (f : A -> counters -> B * counters)
         (l : list A) (g : counters) : list B * counters :=
  match l with
  | [] => ([], g)
  | a :: l' =>
      let '(b, g1) := f a g in
      let '(bs, g2) := map_st f l' g1 in
      (b :: bs, g2)
  end.

(** The inner callback: [KEYNB++], [FREQ = FREQ * Math.pow(2, 1/12)], then
    the record. *)
Definition note_step (v : Z) (v2 : string) (g : counters) : Note.t * counters :=
  let '(KEYNB, FREQ) := g in
  let KEYNB' := add KEYNB (of_Z 1) in
  let FREQ' := mul FREQ semitone in
  (Note.mk KEYNB' FREQ' (v2 ++ string_of_Z v)%string, (KEYNB', FREQ')).

(** The outer callback: one octave of twelve records. *)
Definition octave_step (v : Z) (g : counters) : list Note.t * counters :=
  map_st (note_step v) DICT_KEYS g.

(** lodash's [dropRightWhile(array, predicate)]: the predicate is called
    with (value, index) from the last element down, and the elements are
    dropped while it holds.  [rev_l] is the array reversed and [i] the
    index of its head. *)
Fixpoint dropRightWhile_rev {A : Type} (p : A -> Z -> bool) (rev_l : list A)
         (i : Z) : list A :=
  match rev_l with
  | [] => []
  | a :: rest => if p a i then dropRightWhile_rev p rest (i - 1) else rev_l
  end.

Definition dropRightWhile {A : Type} (p : A -> Z -> bool) (l : list A) : list A :=
  rev (dropRightWhile_rev p (rev l) (Z.of_nat (length l) - 1)).

Definition getNotesInfo : list Note.t :=
  let '(rows, _) := map_st octave_step DICT_OCTAVES (of_Z 0, FREQ_start) in
  dropRightWhile (fun _ i => 88 <=? i) (concat rows).

(** ** The constructor *)

Record notePlayer := mkNotePlayer {
  pianoKeyNb : value;
  frequency : value;
  octave : value;
  name : value;
  duration : value;
  volume : value;
  verbose : value;
  attack : value;
  release : value;
  audioContext : value;
  destinationNode : value
}.

Definition set_audioContext (v : value) (this : notePlayer) : notePlayer :=
  mkNotePlayer (pianoKeyNb this) (frequency this) (octave this) (name this)
    (duration this) (volume this) (verbose this) (attack this) (release this)
    v (destinationNode this).

Definition set_destinationNode (v : value) (this : notePlayer) : notePlayer :=
  mkNotePlayer (pianoKeyNb this) (frequency this) (octave this) (name this)
    (duration this) (volume this) (verbose this) (attack this) (release this)
    (audioContext this) v.

Definition set_duration (v : value) (this : notePlayer) : notePlayer :=
  mkNotePlayer (pianoKeyNb this) (frequency this) (octave this) (name this)
    v (volume this) (verbose this) (attack this) (release this)
    (audioContext this) (destinationNode this).

Definition set_volume (v : value) (this : notePlayer) : notePlayer :=
  mkNotePlayer (pianoKeyNb this) (frequency this) (octave this) (name this)
    (duration this) v (verbose this) (attack this) (release this)
    (audioContext this) (destinationNode this).

Definition set_verbose (v : value) (this : notePlayer) : notePlayer :=
  mkNotePlayer (pianoKeyNb this) (frequency this) (octave this) (name this)
    (duration this) (volume this) v (attack this) (release this)
    (audioContext this) (destinationNode this).

Definition set_attack (v : value) (this : notePlayer) : notePlayer :=
  mkNotePlayer (pianoKeyNb this) (frequency this) (octave this) (name this)
    (duration this) (volume this) (verbose this) v (release this)
    (audioContext this) (destinationNode this).

Definition set_release (v : value) (this : notePlayer) : notePlayer :=
  mkNotePlayer (pianoKeyNb this) (frequency this) (octave this) (name this)
    (duration this) (volume this) (verbose this) (attack this) v
    (audioContext this) (destinationNode this).

(** [new notePlayer(obj)], where [obj] is a table record and
    [obj_audioContext] the [audioContext] property the factory added to it.
    The nine plain assignments cannot fail.  When one of the last two
    statements throws, the handler logs the error and returns null; as the
    function runs under [new], that primitive is discarded and the caller
    receives the object as it is by then. *)
Definition new_notePlayer (h : host) (obj : Note.t) (obj_audioContext : value)
  : console * notePlayer :=
  let this :=
    {| pianoKeyNb := VNum (Note.keynb obj);
       frequency := VNum (Note.freq obj);
       octave := VStr (slice_last (Note.name obj));
       name := VStr (Note.name obj);
       duration := VNum (random_duration h);
       volume := VNum (of_Z 1);
       verbose := VBool false;
       attack := VNum (decimal 3 1);
       release := VNum (decimal 1 1);
       audioContext := VUndefined;
       destinationNode := VUndefined |} in
  match (match obj_audioContext with
         | VUndefined => new_AudioContext h
         | ac => inr ac
         end) with
  | inl err => ([console_error "" err], this)
  | inr ac =>
      let this := set_audioContext ac this in
      match get_destination h ac with
      | inl err => ([console_error "" err], this)
      | inr dn => ([], set_destinationNode dn this)
      end
  end.

(** ** The factories *)

(** The body of a [try] block: the value it returns, or what it throws. *)
Definition attempt (A : Type) : Type := (thrown + A)%type.

Definition ret {A : Type} (a : A) : attempt A := inr a.

Definition throw {A : Type} (e : thrown) : attempt A := inl e.

Definition bind {A B : Type} (c : attempt A) (k : A -> attempt B) : attempt B :=
  match c with
  | inl e => inl e
  | inr a => k a
  end.

Notation "x <- c ;; k" := (bind c (fun x => k))
  (at level 61, c at next level, right associativity).

(** What a factory hands back: the console output of the call, and the
    player or null. *)
Definition built : Type := (console * option notePlayer)%type.

(** The value of [new notePlayer(n)], handed back with what the
    constructor logged. *)
Definition constructed (r : console * notePlayer) : built :=
  (fst r, Some (snd r)).

(** What a failed factory call leaves on the console, and null. *)
Definition failure (e : thrown) (usage : string) : built :=
  ([console_error "NOTEPLAYER ERROR: " e; console_warn usage], None).

(** The [catch] clause shared by the three factories. *)
Definition catch (usage : string) (body : attempt built) : built :=
  match body with
  | inr b => b
  | inl e => failure e usage
  end.

(** [list[i]], read for one of its properties: a TypeError when the
    element is absent. *)
Definition element {A : Type} (l : list A) (i : nat) : attempt A :=
  match nth_error l i with
  | Some a => ret a
  | None => throw TypeError
  end.

(** [parseInt] on a string of at most one code unit, which is what
    [slice(-1)] returns: the value of a decimal digit, and NaN ([None]) for
    anything else. *)
Definition parseInt (s : string) : option Z :=
  match s with
  | String c EmptyString =>
      let n := Z.of_nat (nat_of_ascii c) in
      if (48 <=? n) && (n <=? 57) then Some (n - 48) else None
  | _ => None
  end.

(** ToString of what [parseInt] returned. *)
Definition string_of_parsed (o : option Z) : string :=
  match o with
  | Some z => string_of_Z z
  | None => "NaN"
  end.

(** [o < n] and [o > n] for what [parseInt] returned: false on NaN. *)
Definition parsed_ltb (o : option Z) (n : Z) : bool :=
  match o with Some z => z <? n | None => false end.

Definition parsed_gtb (o : option Z) (n : Z) : bool :=
  match o with Some z => n <? z | None => false end.

Definition DICT_TRANSLATIONS : list (string * string) :=
  [("Cb", "B"); ("Db", "C#"); ("Eb", "D#"); ("Fb", "E");
   ("Gb", "F#"); ("Ab", "G#"); ("Bb", "A#")]%string.

(** [DICT_TRANSLATIONS[key]], undefined ([None]) for any other key. *)
Fixpoint lookup (key : string) (d : list (string * string)) : option string :=
  match d with
  | [] => None
  | (k, v) :: d' => if String.eqb k key then Some v else lookup key d'
  end.

(** The name looked up in the table: the flat replaced by its translation
    followed by the parsed octave, or the input as it is. *)
Definition translate (noteName : string) : string :=
  let OCTAVE_INPUT := parseInt (slice_last noteName) in
  let NOTE_INPUT := slice_0_2 noteName in
  match lookup NOTE_INPUT DICT_TRANSLATIONS with
  | Some t => (t ++ string_of_parsed OCTAVE_INPUT)%string
  | None => noteName
  end.

Definition buildFromName_usage : string :=
  "USAGE: notePlayer.buildFromName(noteNameWithOctave,[audioContext]). i.e: buildFromName('G4')".

Definition buildFromName (h : host) (noteName : option string)
           (audioContext : value) : built :=
  catch buildFromName_usage
    match noteName with
    | None => throw (ThrowString "note name was not provided")
    | Some noteName =>
        let OCTAVE_INPUT := parseInt (slice_last noteName) in
        if parsed_ltb OCTAVE_INPUT 1 || parsed_gtb OCTAVE_INPUT 8
        then throw (ThrowString ("Invalid octave: " ++ noteName))
        else
          let noteName := translate noteName in
          match find (fun e => String.eqb (Note.name e) noteName) getNotesInfo with
          | None =>
              throw (ThrowString ("Invalid note name: " ++ noteName ++
                                  ", did you forget to mention the octave nb ?"))
          | Some n => ret (constructed (new_notePlayer h n audioContext))
          end
    end.

(** [list.reduce(f)] without an initial value: a TypeError on the empty
    array. *)
Definition reduce {A : Type} (f : A -> A -> A) (l : list A) : attempt A :=
  match l with
  | [] => throw TypeError
  | a :: l' => ret (fold_left f l' a)
  end.

(** The callback of the search: the current record replaces the best one
    when it is strictly nearer to [noteFreq]. *)
Definition nearer (noteFreq : number) (prev curr : Note.t) : Note.t :=
  if ltb (abs (sub (Note.freq curr) noteFreq)) (abs (sub (Note.freq prev) noteFreq))
  then curr else prev.

Definition buildFromFrequency_usage : string :=
  "USAGE: notePlayer.buildFromFrequency(frequency,[audioContext]). i.e: buildFromFrequency(440)".

Definition buildFromFrequency (h : host) (noteFreq : option number)
           (audioContext : value) : built :=
  catch buildFromFrequency_usage
    match noteFreq with
    | None => throw (ThrowString "note frequency was not provided")
    | Some noteFreq =>
        let list := getNotesInfo in
        first <- element list 0 ;;
        last <- element list (length list - 1) ;;
        if ltb noteFreq (Note.freq first) || gtb noteFreq (Note.freq last)
        then throw (ThrowStringNumber
                      "Invalid frequency (out of range 27.5-4186): " noteFreq "")
        else
          closest <- reduce (nearer noteFreq) list ;;
          ret (buildFromName h (Some (Note.name closest)) audioContext)
    end.

Definition buildFromKeyNb_usage : string :=
  "USAGE: notePlayer.buildFromKeyNb(noteKeyNb,[audioContext]). i.e: buildFromKeyNb(49)".

Definition buildFromKeyNb (h : host) (noteKeyNb : option number)
           (audioContext : value) : built :=
  catch buildFromKeyNb_usage
    match noteKeyNb with
    | None => throw (ThrowString "note keyNumber was not provided")
    | Some noteKeyNb =>
        match find (fun e => eqb (Note.keynb e) noteKeyNb) getNotesInfo with
        | None =>
            throw (ThrowStringNumber "Invalid keyNumber: " noteKeyNb
                                     ", has to be within range 1-88")
        | Some n => ret (constructed (new_notePlayer h n audioContext))
        end
    end.

(** ** The setters *)

(** How a method call ends, and the instance it leaves behind. *)
Inductive completion :=
| Normal (this : notePlayer)
| Abrupt (e : thrown) (this : notePlayer).

Definition instance_after (c : completion) : notePlayer :=
  match c with
  | Normal this => this
  | Abrupt _ this => this
  end.

(** [ac == void 0] holds for undefined and for null. *)
Definition setAudioContext (ac : value) (this : notePlayer) : completion :=
  Normal (set_audioContext
            match ac with
            | VUndefined | VNull => audioContext this
            | _ => ac
            end this).

(** [this.audiocontext], in lower case: the constructor never assigns a
    property of that name, so the read gives undefined. *)
Definition audiocontext (this : notePlayer) : value := VUndefined.

(** The right-hand side is evaluated before the assignment: when the
    property read throws, no field is written. *)
Definition setDestinationNode (h : host) (dn : value) (this : notePlayer)
  : completion :=
  match dn with
  | VUndefined =>
      match get_destination h (audiocontext this) with
      | inl e => Abrupt e this
      | inr d => Normal (set_destinationNode d this)
      end
  | _ => Normal (set_destinationNode dn this)
  end.

Definition setDuration (d : value) (this : notePlayer) : completion :=
  Normal (set_duration
            match d with
            | VUndefined => duration this
            | _ => d
            end this).

Definition setVolume (v : value) (this : notePlayer) : completion :=
  Normal (set_volume
            match v with
            | VUndefined => volume this
            | _ => v
            end this).

Definition setVerbose (v : value) (this : notePlayer) : completion :=
  Normal (set_verbose
            match v with
            | VUndefined | VBool true => VBool true
            | _ => VBool false
            end this).

(** The guard of [setAttack] and [setRelease]:
    [n === void 0 || n % 1 === 0]. *)
Definition undefined_or_whole (h : host) (n : value) : thrown + bool :=
  match n with
  | VUndefined => inr true
  | _ =>
      match ToNumber h n with
      | inl e => inl e
      | inr x => inr (eqb (rem_1 x) (of_Z 0))
      end
  end.

Definition setAttack (h : host) (n : value) (this : notePlayer) : completion :=
  match undefined_or_whole h n with
  | inl e => Abrupt e this
  | inr keep => Normal (set_attack (if keep then attack this else n) this)
  end.

Definition setRelease (h : host) (n : value) (this : notePlayer) : completion :=
  match undefined_or_whole h n with
  | inl e => Abrupt e this
  | inr keep => Normal (set_release (if keep then release this else n) this)
  end.

(** ** Vocabulary of the statements *)

(** The key numbers [1..n] as Numbers. *)
Definition keys_upto (n : nat) : list number :=
  map (fun i => of_Z (Z.of_nat i)) (seq 1 n).

(** The table record of key [i], counted from 1. *)
Definition record_of_key (i : Z) : option Note.t :=
  nth_error getNotesInfo (Z.to_nat (i - 1)).

(** A player whose identity fields are those of the record [n]. *)
Definition built_from (n : Note.t) (np : notePlayer) : Prop :=
  pianoKeyNb np = VNum (Note.keynb n) /\
  frequency np = VNum (Note.freq n) /\
  name np = VStr (Note.name n) /\
  octave np = VStr (slice_last (Note.name n)).


(** The fields of an instance, and the value an instance holds in one. *)
Inductive field :=
| PianoKeyNb | Frequency | Octave | Name | Duration | Volume | Verbose
| Attack | Release | AudioContext | DestinationNode.

Definition get (f : field) (this : notePlayer) : value :=
  match f with
  | PianoKeyNb => pianoKeyNb this
  | Frequency => frequency this
  | Octave => octave this
  | Name => name this
  | Duration => duration this
  | Volume => volume this
  | Verbose => verbose this
  | Attack => attack this
  | Release => release this
  | AudioContext => audioContext this
  | DestinationNode => destinationNode this
  end.

(** [this'] is [this] after [this.f = v]: it holds [v] in the field [f]
    and what [this] holds in every other field. *)
Definition assigned (f : field) (v : value) (this this' : notePlayer) : Prop :=
  get f this' = v /\ forall g : field, g <> f -> get g this' = get g this.

(** The call returns, and has assigned [v] to the field [f] of [this]. *)
Definition returns_assigning (f : field) (v : value) (this : notePlayer)
           (c : completion) : Prop :=
  exists this' : notePlayer, c = Normal this' /\ assigned f v this this'.

(** Identity of representation, on Numbers and on records. *)
Definition same_number (x y : number) : bool :=
  match x, y with
  | S754_zero a, S754_zero b => Bool.eqb a b
  | S754_infinity a, S754_infinity b => Bool.eqb a b
  | S754_nan, S754_nan => true
  | S754_finite s m e, S754_finite s' m' e' =>
      Bool.eqb s s' && Pos.eqb m m' && Z.eqb e e'
  | _, _ => false
  end.

Definition same_record (a b : Note.t) : bool :=
  same_number (Note.keynb a) (Note.keynb b) &&
  same_number (Note.freq a) (Note.freq b) &&
  String.eqb (Note.name a) (Note.name b).

(** What the table holds at key [i]: the record at that position carries
    the key number [i], a positive finite Number, and is the first record
    the search by key number returns. *)
Definition key_checked (i : Z) : bool :=
  match record_of_key i, find (fun e => eqb (Note.keynb e) (of_Z i)) getNotesInfo with
  | Some n, Some n' =>
      same_record n' n && same_number (Note.keynb n) (of_Z i) &&
      match of_Z i with S754_finite false _ _ => true | _ => false end
  | _, _ => false
  end.

(** A record is in order for the first octave when its key number being
    one of 1..12 makes its name end in the digit 0. *)
Definition first_octave_checked (n : Note.t) : bool :=
  implb (existsb (fun j => same_number (Note.keynb n) (of_Z j))
                 (map Z.of_nat (seq 1 12)))
        (String.eqb (slice_last (Note.name n)) "0").

(** A frequency that is neither below the first nor above the last
    frequency of the table. *)
Definition in_table_range (f : number) : bool :=
  match nth_error getNotesInfo 0, nth_error getNotesInfo 87 with
  | Some first, Some last =>
      negb (ltb f (Note.freq first) || gtb f (Note.freq last))
  | _, _ => false
  end.

(** The record the search of buildFromFrequency settles on. *)
Definition closest (f : number) : option Note.t :=
  match reduce (nearer f) getNotesInfo with
  | inr c => Some c
  | inl _ => None
  end.

(** The twelfth root of two, the ratio of a semitone in equal temperament. *)
Definition twelfth_root_of_two : R := Rpower 2 (/ 12).

(** The relative tolerance of the spec, 1e-9. *)
Definition tolerance : Q := 1 # 1000000000.

Definition pow12 (q : Q) : Q :=
  let q2 := (q * q)%Q in
  let q4 := (q2 * q2)%Q in
  (q4 * q4 * q4)%Q.

(** A rational test for [|r - root| <= tolerance * root]: the twelfth
    powers of [r / (1 + tolerance)] and of [r / (1 - tolerance)] lie on
    either side of 2. *)
Definition near_root (r : Q) : bool :=
  Qle_bool 0 r &&
  Qle_bool (pow12 (r / (1 + tolerance))) 2 &&
  Qle_bool 2 (pow12 (r / (1 - tolerance))).

(** Two positive finite frequencies, the second above the first for [<]
    and in exact value, and their exact ratio near the twelfth root of
    two. *)
Definition semitone_apart (f f' : number) : bool :=
  ltb f f' && is_finite f && is_finite f' &&
  negb (Qle_bool (to_Q f) 0) &&
  negb (Qle_bool (to_Q f') (to_Q f)) &&
  near_root (to_Q f' / to_Q f).

Definition step_checked (i : Z) : bool :=
  match record_of_key i, record_of_key (i + 1) with
  | Some n, Some n' => semitone_apart (Note.freq n) (Note.freq n')
  | _, _ => false
  end.

(** The record of key [i] has the name [nm] and a finite frequency within
    [tol] of [target]. *)
Definition key_is (i : Z) (nm : string) (target tol : Q) : Prop :=
  exists n : Note.t,
    record_of_key i = Some n /\ Note.name n = nm /\
    is_finite (Note.freq n) = true /\
    (Qabs (to_Q (Note.freq n) - target) <= tol)%Q.

Definition key_is_checked (i : Z) (nm : string) (target tol : Q) : bool :=
  match record_of_key i with
  | Some n =>
      String.eqb (Note.name n) nm && is_finite (Note.freq n) &&
      Qle_bool (Qabs (to_Q (Note.freq n) - target)) tol
  | None => false
  end.

(** The distance the search compares: [Math.abs(e.freq - noteFreq)]. *)
Definition distance (noteFreq : number) (e : Note.t) : number :=
  abs (sub (Note.freq e) noteFreq).

(** The name of a record leads buildFromName back to that record: its
    last character is an octave digit of 1..8, the translation leaves it
    as it is, and the search by name returns the record itself. *)
Definition name_resolves (n : Note.t) : bool :=
  match parseInt (slice_last (Note.name n)) with
  | Some d =>
      (1 <=? d) && (d <=? 8) &&
      String.eqb (translate (Note.name n)) (Note.name n) &&
      match find (fun e => String.eqb (Note.name e) (Note.name n)) getNotesInfo with
      | Some n' => same_record n' n
      | None => false
      end
  | None => false
  end.

(** The name of a record ends in the digit 0. *)
Definition octave_zero (n : Note.t) : bool :=
  String.eqb (slice_last (Note.name n)) "0".

(** A host with a working audio context, and a player built on it. *)
Definition example_host : host :=
  mkHost (of_Z 2) (inr (VObj 1)) (fun o => VObj (o + 100)) (fun _ => inr NaN).

Definition example_player : notePlayer :=
  snd (new_notePlayer example_host (Note.mk (of_Z 49) (of_Z 440) "A4") VUndefined).

(** ** Vocabulary of the further statements *)

(** The name the generation gives key [k]: the pitch class at position
    [(k - 1) mod 12] of [DICT_KEYS], followed by the octave [(k - 1) / 12]. *)
Definition name_of_key (k : Z) : string :=
  (nth (Z.to_nat ((k - 1) mod 12)) DICT_KEYS "" ++ string_of_Z ((k - 1) / 12))%string.

Definition name_checked (k : Z) : bool :=
  match record_of_key k with
  | Some n => String.eqb (Note.name n) (name_of_key k)
  | None => false
  end.

(** No string occurs twice in the list. *)
Fixpoint distinct (l : list string) : bool :=
  match l with
  | [] => true
  | a :: l' => negb (existsb (String.eqb a) l') && distinct l'
  end.

(** The frequency of key [k] in twelve-tone equal temperament on
    A0 = 27.5 Hz. *)
Definition pitch (k : Z) : R :=
  (275 / 10 * twelfth_root_of_two ^ Z.to_nat (k - 1))%R.

(** The relative tolerance of the tuning statement, 1e-14. *)
Definition tuning_tolerance : Q := 1 # 100000000000000.

(** A rational test for [|f - pitch k| <= tuning_tolerance * pitch k]:
    with [r = f / 27.5], the twelfth powers of [r / (1 + tolerance)] and
    of [r / (1 - tolerance)] lie on either side of [2 ^ (k - 1)]. *)
Definition tuned (k : Z) (f : number) : bool :=
  is_finite f &&
  let r := (to_Q f / (275 # 10))%Q in
  Qle_bool 0 r &&
  Qle_bool (pow12 (r / (1 + tuning_tolerance))) (inject_Z (2 ^ (k - 1))) &&
  Qle_bool (inject_Z (2 ^ (k - 1))) (pow12 (r / (1 - tuning_tolerance))).

Definition tuned_checked (k : Z) : bool :=
  match record_of_key k with
  | Some n => tuned k (Note.freq n)
  | None => false
  end.

(** The last character of the name of a record is a decimal digit. *)
Definition ends_in_digit (n : Note.t) : bool :=
  match parseInt (slice_last (Note.name n)) with
  | Some _ => true
  | None => false
  end.

(** A record of the table is either of octave 0, or carries a key number
    of 13..88 and an octave digit of 1..7. *)
Definition octave_checked (n : Note.t) : bool :=
  octave_zero n ||
  (existsb (fun k => same_number (Note.keynb n) (of_Z k))
           (map Z.of_nat (seq 13 76)) &&
   existsb (fun d => String.eqb (slice_last (Note.name n)) (string_of_Z d))
           (map Z.of_nat (seq 1 7))).

(** The frequency of a record is in the range of the table and the search
    on it settles on the record itself. *)
Definition resolves_to_itself (n : Note.t) : bool :=
  in_table_range (Note.freq n) &&
  match closest (Note.freq n) with
  | Some c => same_record c n
  | None => false
  end.

(** The player buildFromKeyNb(49) returns on the example host. *)
Definition example_A4 : notePlayer :=
  match snd (buildFromKeyNb example_host (Some (of_Z 49)) VUndefined) with
  | Some np => np
  | None => example_player
  end.

(** A player of the upper octaves: its key number is one of 13..88 and
    its octave field one of the digits 1..7. *)
Definition upper_player (np : notePlayer) : Prop :=
  exists k d : Z,
    13 <= k <= 88 /\ pianoKeyNb np = VNum (of_Z k) /\
    1 <= d <= 7 /\ octave np = VStr (string_of_Z d).

(** The values the constructor gives the fields that no argument decides. *)
Definition has_defaults (h : host) (np : notePlayer) : Prop :=
  duration np = VNum (random_duration h) /\
  volume np = VNum (of_Z 1) /\
  verbose np = VBool false /\
  attack np = VNum (decimal 3 1) /\
  release np = VNum (decimal 1 1).

(** A call of one of the seven setters, with its argument. *)
Inductive setter_call :=
| CallSetAudioContext (ac : value)
| CallSetDestinationNode (dn : value)
| CallSetDuration (d : value)
| CallSetVolume (v : value)
| CallSetVerbose (v : value)
| CallSetAttack (n : value)
| CallSetRelease (n : value).

Definition call_setter (h : host) (c : setter_call) (this : notePlayer) : completion :=
  match c with
  | CallSetAudioContext ac => setAudioContext ac this
  | CallSetDestinationNode dn => setDestinationNode h dn this
  | CallSetDuration d => setDuration d this
  | CallSetVolume v => setVolume v this
  | CallSetVerbose v => setVerbose v this
  | CallSetAttack n => setAttack h n this
  | CallSetRelease n => setRelease h n this
  end.

(** Setter calls one after the other on the same instance; the first one
    that throws ends the sequence. *)
Fixpoint call_setters (h : host) (cs : list setter_call) (this : notePlayer)
  : completion :=
  match cs with
  | [] => Normal this
  | c :: cs' =>
      match call_setter h c this with
      | Normal this' => call_setters h cs' this'
      | Abrupt e this' => Abrupt e this'
      end
  end.

Definition is_boolean (v : value) : Prop := exists b : bool, v = VBool b.

(** ** [notePlayer.prototype.play] *)

(** [ToBoolean]. *)
Definition truthy (v : value) : bool :=
  match v with
  | VUndefined | VNull => false
  | VBool b => b
  | VNum (S754_zero _) | VNum S754_nan => false
  | VNum _ => true
  | VStr EmptyString => false
  | VStr _ => true
  | VObj _ => true
  end.

(** The two function expressions of [play]: the one handed to
    [setTimeout], which closes over [oscillator], and the one assigned to
    [onended], which closes over [callback]. *)
Inductive closure :=
| timeout_handler (oscillator : value)
| ended_handler (callback : value).

(** What is passed or assigned: a value, or one of the two functions. *)
Inductive arg :=
| Val (v : value)
| Fun (f : closure).

(** The lines [play] and its timer write with [console.log]:
    ["Note " + name + " will play for a duration of " + duration] and
    ["Note " + name + " has finished playing"], kept as their parts. *)
Inductive play_log :=
| will_play (name duration : value)
| has_finished (name : value).

(** What the code asks of its environment while it plays: each is
    answered by a value or by an exception. *)
Inductive request :=
| console_log (line : play_log)
| Global (name : string)
| Member (obj : value) (prop : string)
| Assign (obj : value) (prop : string) (v : arg)
| Call (f this : value) (args : list arg)
| Sum (a b : value).

(** A run of statements: it returns, throws, asks the environment and
    goes on with the answer, or assigns the global [t_np] the instance
    whose reference is [self] and goes on. *)
Inductive prog (A : Type) : Type :=
| Ret (a : A)
| Raise (e : thrown)
| Ask (r : request) (k : value -> prog A)
| Store_t_np (self : nat) (k : prog A).

Arguments Ret {A} a.
Arguments Raise {A} e.
Arguments Ask {A} r k.
Arguments Store_t_np {A} self k.

Fixpoint sequence {A B : Type} (p : prog A) (k : A -> prog B) : prog B :=
  match p with
  | Ret a => k a
  | Raise e => Raise e
  | Ask r k' => Ask r (fun v => sequence (k' v) k)
  | Store_t_np self k' => Store_t_np self (sequence k' k)
  end.

Notation "x <~ c ;; k" := (sequence c (fun x => k))
  (at level 61, c at next level, right associativity).

Definition ask (r : request) : prog value := Ask r (fun v => Ret v).

(** [obj.prop]: a TypeError on undefined and null, the environment's
    answer otherwise. *)
Definition member (obj : value) (prop : string) : prog value :=
  match obj with
  | VUndefined | VNull => Raise TypeError
  | _ => ask (Member obj prop)
  end.

(** [obj.prop = v]. *)
Definition assign (obj : value) (prop : string) (v : arg) : prog value :=
  match obj with
  | VUndefined | VNull => Raise TypeError
  | _ => ask (Assign obj prop v)
  end.

(** [f(args)] with the given [this]: only an object can be a function. *)
Definition call (f this : value) (args : list arg) : prog value :=
  match f with
  | VObj _ => ask (Call f this args)
  | _ => Raise TypeError
  end.

(** The Number of undefined, null, a boolean or a Number. *)
Definition number_of_primitive (v : value) : option number :=
  match v with
  | VUndefined => Some NaN
  | VNull => Some (of_Z 0)
  | VBool b => Some (if b then of_Z 1 else of_Z 0)
  | VNum x => Some x
  | _ => None
  end.

(** [a + b]: the sum of the two Numbers when neither operand is a string
    or an object, and the environment's answer otherwise. *)
Definition sum (a b : value) : prog value :=
  match number_of_primitive a, number_of_primitive b with
  | Some x, Some y => Ret (VNum (add x y))
  | _, _ => ask (Sum a b)
  end.

(** [a * 1000]. *)
Definition times_1000 (h : host) (a : value) : prog value :=
  match ToNumber h a with
  | inl e => Raise e
  | inr x => Ret (VNum (mul x (of_Z 1000)))
  end.

Definition when_truthy (v : value) (p : prog value) : prog value :=
  if truthy v then p else Ret VUndefined.

(** [this.play(callback)], for the instance [this] whose reference is
    [self]. *)
Definition play (h : host) (self : nat) (this : notePlayer) (callback : value)
  : prog value :=
  _ <~ when_truthy (verbose this)
         (ask (console_log (will_play (name this) (duration this)))) ;;
  createOscillator <~ member (audioContext this) "createOscillator" ;;
  oscillator <~ call createOscillator (audioContext this) [] ;;
  frequency_param <~ member oscillator "frequency" ;;
  _ <~ assign frequency_param "value" (Val (frequency this)) ;;
  createGain <~ member (audioContext this) "createGain" ;;
  gainNode <~ call createGain (audioContext this) [] ;;
  gain <~ member gainNode "gain" ;;
  linearRampToValueAtTime <~ member gain "linearRampToValueAtTime" ;;
  currentTime <~ member (audioContext this) "currentTime" ;;
  reached <~ sum currentTime (attack this) ;;
  _ <~ call linearRampToValueAtTime gain [Val (volume this); Val reached] ;;
  gain <~ member gainNode "gain" ;;
  setTargetAtTime <~ member gain "setTargetAtTime" ;;
  currentTime <~ member (audioContext this) "currentTime" ;;
  reached <~ sum currentTime (attack this) ;;
  _ <~ call setTargetAtTime gain
         [Val (VNum (of_Z 0)); Val reached;
          Val (if truthy (release this) then release this else attack this)] ;;
  connect <~ member oscillator "connect" ;;
  _ <~ call connect oscillator [Val gainNode] ;;
  connect <~ member gainNode "connect" ;;
  _ <~ call connect gainNode [Val (destinationNode this)] ;;
  start <~ member oscillator "start" ;;
  _ <~ call start oscillator [Val (VNum (of_Z 0))] ;;
  Store_t_np self
    (setTimeout <~ ask (Global "setTimeout") ;;
     delay <~ times_1000 h (duration this) ;;
     _ <~ call setTimeout VUndefined [Fun (timeout_handler oscillator); Val delay] ;;
     _ <~ assign oscillator "onended" (Fun (ended_handler callback)) ;;
     Ret oscillator).

(** The body of the function handed to [setTimeout], run when the timer
    fires; [t_np] is the instance the global refers to by then. *)
Definition timeout_body (t_np : notePlayer) (oscillator : value) : prog value :=
  _ <~ when_truthy (verbose t_np) (ask (console_log (has_finished (name t_np)))) ;;
  stop <~ member oscillator "stop" ;;
  call stop oscillator [Val (VNum (of_Z 0))].

(** The body of the function assigned to [onended]. *)
Definition ended_body (callback : value) : prog value :=
  when_truthy callback (call callback VUndefined []).

(** The instances, the global [t_np] and the requests made so far. *)
Record world := mkWorld {
  heap : list notePlayer;
  t_np : option nat;
  history : list request
}.

(** The environment: its answer to a request, given the requests made
    before. *)
Definition oracle : Type := list request -> request -> thrown + value.

Definition record (r : request) (w : world) : world :=
  mkWorld (heap w) (t_np w) (history w ++ [r]).

Definition store_t_np (self : nat) (w : world) : world :=
  mkWorld (heap w) (Some self) (history w).

Fixpoint exec {A : Type} (o : oracle) (p : prog A) (w : world)
  : world * (thrown + A) :=
  match p with
  | Ret a => (w, inr a)
  | Raise e => (w, inl e)
  | Ask r k =>
      match o (history w) r with
      | inl e => (record r w, inl e)
      | inr v => exec o (k v) (record r w)
      end
  | Store_t_np self k => exec o k (store_t_np self w)
  end.

(** [heap[self].play(callback)]. *)
Definition play_at (o : oracle) (h : host) (self : nat) (callback : value)
           (w : world) : world * (thrown + value) :=
  match nth_error (heap w) self with
  | Some this => exec o (play h self this callback) w
  | None => (w, inl TypeError)
  end.

(** The environment runs one of the two functions. *)
Definition fire (o : oracle) (f : closure) (w : world) : world * (thrown + value) :=
  match f with
  | timeout_handler oscillator =>
      match t_np w with
      | Some self =>
          match nth_error (heap w) self with
          | Some np => exec o (timeout_body np oscillator) w
          | None => (w, inl TypeError)
          end
      | None => (w, inl TypeError)
      end
  | ended_handler callback => exec o (ended_body callback) w
  end.

(** The requests for the [stop] method of some object. *)
Definition asks_stop (r : request) : bool :=
  match r with
  | Member _ prop => String.eqb prop "stop"
  | _ => false
  end.

(** Every request the run can make, whatever the answers, satisfies [P]. *)
Fixpoint all_requests {A : Type} (P : request -> Prop) (p : prog A) : Prop :=
  match p with
  | Ret _ | Raise _ => True
  | Ask r k => P r /\ forall v, all_requests P (k v)
  | Store_t_np _ k => all_requests P k
  end.

(** An environment in which every request succeeds: the clock reads 0
    and every other answer is a fresh object. *)
Definition example_oracle : oracle :=
  fun past r =>
    match r with
    | Member _ "currentTime" => inr (VNum (of_Z 0))
    | _ => inr (VObj (1000 + N.of_nat (length past)))
    end.

Definition example_world : world :=
  mkWorld [example_player; example_A4] None [].

(** The run leaves [t_np] referring to [target] whenever it returns:
    [s] is what the global holds when the run starts. *)
Fixpoint leaves_t_np {A : Type} (s : option nat) (target : nat) (p : prog A) : Prop :=
  match p with
  | Ret _ => s = Some target
  | Raise _ => True
  | Ask _ k => forall v, leaves_t_np s target (k v)
  | Store_t_np self k => leaves_t_np (Some self) target k
  end.

(** Whenever the run returns [a] after the requests [tr], [Q tr a]. *)
Fixpoint on_success {A : Type} (Q : list request -> A -> Prop) (p : prog A) : Prop :=
  match p with
  | Ret a => Q [] a
  | Raise _ => True
  | Ask r k => forall v, on_success (fun tr a => Q (r :: tr) a) (k v)
  | Store_t_np _ k => on_success Q k
  end.

(** A step asks at most one request, [r]. *)
Definition step_of (r : request) (p : prog value) : Prop :=
  (exists e, p = Raise e) \/ (exists v, p = Ret v) \/ p = ask r.

(** A step that throws or asks [r]. *)
Definition asking (r : request) (p : prog value) : Prop :=
  (exists e, p = Raise e) \/ p = ask r.

(** The calls that hand over the function of the timer. *)
Definition is_timer_call (r : request) : bool :=
  match r with
  | Call _ _ (Fun (timeout_handler _) :: _) => true
  | _ => false
  end.

(** The requests that write with [console.log]. *)
Definition is_log (r : request) : bool :=
  match r with
  | console_log _ => true
  | _ => false
  end.

(** * Properties *)

(** ** Numbers *)

(** *** Whole numbers and [% 1] *)

Lemma pow2_neg_pos (e : Z) : e < 0 -> 0 < 2 ^ (- e).
Proof. intros He. apply Z.pow_pos_nonneg; lia. Qed.

(** The exact value of [m * 2^e] with [e < 0] is an integer exactly when
    the low [-e] bits of [m] are all zero. *)
Lemma dyadic_integer (n : Z) (e : Z) :
  e < 0 ->
  (exists z : Z, Qmake n (Z.to_pos (2 ^ (- e))) == inject_Z z) <->
  n mod 2 ^ (- e) = 0.
Proof.
  intros He. pose proof (pow2_neg_pos e He) as Hd.
  unfold Qeq; cbn [Qnum Qden inject_Z].
  rewrite Z2Pos.id by exact Hd.
  split.
  - intros [z Hz]. rewrite Z.mul_1_r in Hz. subst n. apply Z_mod_mult.
  - intros Hm. exists (n / 2 ^ (- e)).
    rewrite Z.mul_1_r. rewrite Z.mul_comm.
    apply Z_div_exact_full_2; lia.
Qed.

Lemma mod_opp_zero (m d : Z) : 0 < d -> (m mod d = 0 <-> (- m) mod d = 0).
Proof.
  intros Hd. split; intros H.
  - apply Z_mod_zero_opp_full; exact H.
  - rewrite <- (Z.opp_involutive m). apply Z_mod_zero_opp_full; exact H.
Qed.

(** [x % 1 === 0] decides wholeness of a finite Number. *)
Lemma rem_1_whole (x : number) :
  is_finite x = true ->
  (eqb (rem_1 x) (of_Z 0) = true <-> exists z : Z, to_Q x == inject_Z z).
Proof.
  destruct x as [s | s | | s m e]; cbn [is_finite]; try discriminate; intros _.
  - split; [ intros _; exists 0; reflexivity | intros _; destruct s; reflexivity ].
  - unfold rem_1, to_Q. destruct (Z.leb_spec 0 e) as [He | He].
    + split; [ intros _; eexists; reflexivity | intros _; destruct s; reflexivity ].
    + pose proof (pow2_neg_pos e He) as Hd.
      rewrite (dyadic_integer _ e He).
      assert (Hs : (if s then Z.neg m else Z.pos m) mod 2 ^ (- e) = 0 <->
                   Z.pos m mod 2 ^ (- e) = 0).
      { destruct s; [ | reflexivity ].
        change (Z.neg m) with (- Z.pos m). symmetry. apply mod_opp_zero; exact Hd. }
      rewrite Hs.
      pose proof (Z.mod_pos_bound (Z.pos m) (2 ^ (- e)) Hd) as Hb.
      destruct (Z.pos m mod 2 ^ (- e)) as [ | r | r ].
      * split; [ reflexivity | intros _; destruct s; reflexivity ].
      * destruct (shl_align r e _) as [r' e'].
        split; [ destruct s; discriminate | discriminate ].
      * lia.
Qed.

Lemma rem_1_fractional (x : number) :
  fractional x -> eqb (rem_1 x) (of_Z 0) = false.
Proof.
  intros [Hf Hz]. destruct (eqb (rem_1 x) (of_Z 0)) eqn:E; [ | reflexivity ].
  apply (rem_1_whole x Hf) in E. destruct E as [z E]. destruct (Hz z E).
Qed.

(** *** Comparisons *)

Lemma same_number_eq (x y : number) : same_number x y = true -> x = y.
Proof.
  destruct x as [a | a | | s m e], y as [b | b | | s' m' e']; cbn;
    try discriminate; try reflexivity.
  - intros H. apply Bool.eqb_prop in H. congruence.
  - intros H. apply Bool.eqb_prop in H. congruence.
  - intros H. apply andb_true_iff in H. destruct H as [H He].
    apply andb_true_iff in H. destruct H as [Hs Hm].
    apply Bool.eqb_prop in Hs. apply Pos.eqb_eq in Hm. apply Z.eqb_eq in He.
    congruence.
Qed.

(** [===] against a positive finite Number holds for that Number only. *)
Lemma eqb_positive_eq (m : positive) (e : Z) (k : number) :
  eqb (S754_finite false m e) k = true -> k = S754_finite false m e.
Proof.
  unfold eqb, SFeqb. destruct k as [s | s | | s m' e']; cbn.
  - discriminate.
  - destruct s; discriminate.
  - discriminate.
  - destruct s; [ discriminate | ].
    destruct (Z.compare_spec e e') as [He | He | He]; try discriminate.
    change (Pos.compare_cont Eq m m') with (Pos.compare m m').
    destruct (Pos.compare m m') eqn:Hm; try discriminate.
    apply Pos.compare_eq in Hm. intros _. congruence.
Qed.

Ltac compare_cases :=
  repeat match goal with
         | H : context [Pos.compare_cont Eq ?a ?b] |- _ =>
             change (Pos.compare_cont Eq a b) with (Pos.compare a b) in H
         | |- context [Pos.compare_cont Eq ?a ?b] =>
             change (Pos.compare_cont Eq a b) with (Pos.compare a b)
         end;
  repeat match goal with
         | H : context [Z.compare ?a ?b] |- _ => destruct (Z.compare_spec a b)
         | |- context [Z.compare ?a ?b] => destruct (Z.compare_spec a b)
         | H : context [Pos.compare ?a ?b] |- _ => destruct (Pos.compare_spec a b)
         | |- context [Pos.compare ?a ?b] => destruct (Pos.compare_spec a b)
         end;
  cbn in *; try discriminate; try reflexivity; try lia.

Lemma ltb_trans (x y z : number) :
  ltb x y = true -> ltb y z = true -> ltb x z = true.
Proof.
  unfold ltb, SFltb.
  destruct x as [sx | sx | | sx mx ex], y as [sy | sy | | sy my ey],
      z as [sz | sz | | sz mz ez]; cbn; try discriminate; try reflexivity;
    try destruct sx; try destruct sy; try destruct sz; cbn;
    try discriminate; try reflexivity; intros H1 H2; compare_cases.
Qed.

Lemma ltb_irrefl (x : number) : ltb x x = false.
Proof.
  unfold ltb, SFltb. destruct x as [s | s | | s m e]; cbn; try reflexivity.
  - destruct s; reflexivity.
  - destruct s; rewrite Z.compare_refl;
      change (Pos.compare_cont Eq m m) with (Pos.compare m m);
      rewrite Pos.compare_refl; reflexivity.
Qed.

(** Below something that is not below [y], when [y] is no NaN, means
    below [y]. *)
Lemma ltb_le_trans (x y z : number) :
  ltb x z = true -> ltb y z = false -> y <> NaN -> ltb x y = true.
Proof.
  unfold ltb, SFltb, NaN.
  destruct x as [sx | sx | | sx mx ex], y as [sy | sy | | sy my ey],
      z as [sz | sz | | sz mz ez]; cbn; try discriminate; try reflexivity;
    try congruence;
    try destruct sx; try destruct sy; try destruct sz; cbn;
    try discriminate; try reflexivity; intros H1 H2 _; compare_cases.
Qed.

(** *** A difference of Numbers is a NaN only through a NaN *)

Lemma shr_1_nonneg (mrs : shr_record) : 0 <= shr_m mrs -> 0 <= shr_m (shr_1 mrs).
Proof.
  destruct mrs as [m r s]. cbn [shr_m]. intros Hm.
  destruct m as [ | [p | p | ] | p ]; cbn; lia.
Qed.

Lemma iter_shr_1_nonneg (p : positive) (mrs : shr_record) :
  0 <= shr_m mrs -> 0 <= shr_m (SpecFloat.iter_pos shr_1 p mrs).
Proof.
  revert mrs. induction p as [p IH | p IH | ]; intros mrs Hm; cbn [SpecFloat.iter_pos].
  - apply IH, IH, shr_1_nonneg, Hm.
  - apply IH, IH, Hm.
  - apply shr_1_nonneg, Hm.
Qed.

Lemma shr_fexp_nonneg (m e : Z) (l : location) :
  0 <= m -> 0 <= shr_m (fst (shr_fexp prec emax m e l)).
Proof.
  intros Hm. unfold shr_fexp, shr.
  assert (H0 : 0 <= shr_m (shr_record_of_loc m l)).
  { destruct l as [ | [ | | ] ]; cbn; exact Hm. }
  destruct (fexp prec emax (Zdigits2 m + e) - e) as [ | p | p ]; cbn [fst];
    [ exact H0 | apply iter_shr_1_nonneg; exact H0 | exact H0 ].
Qed.

Lemma round_nearest_even_nonneg (m : Z) (l : location) :
  0 <= m -> 0 <= round_nearest_even m l.
Proof.
  intros Hm. unfold round_nearest_even.
  destruct l as [ | [ | | ] ]; try destruct (Z.even m); lia.
Qed.

Lemma binary_round_aux_not_nan (s : bool) (m e : Z) (l : location) :
  0 <= m -> binary_round_aux prec emax s m e l <> NaN.
Proof.
  intros Hm. unfold binary_round_aux.
  pose proof (shr_fexp_nonneg m e l Hm) as H1.
  destruct (shr_fexp prec emax m e l) as [mrs' e']. cbn [fst] in H1.
  pose proof (shr_fexp_nonneg _ e' loc_Exact
                (round_nearest_even_nonneg _ (loc_of_shr_record mrs') H1)) as H2.
  destruct (shr_fexp prec emax _ e' loc_Exact) as [mrs'' e'']. cbn [fst] in H2.
  destruct (shr_m mrs'') as [ | p | p ]; [ discriminate | | lia ].
  destruct (e'' <=? emax - prec); discriminate.
Qed.

Lemma binary_normalize_not_nan (m e : Z) (s : bool) :
  binary_normalize prec emax m e s <> NaN.
Proof.
  unfold binary_normalize, binary_round.
  destruct m as [ | p | p ]; [ discriminate | | ];
    destruct (shl_align p e _) as [mz ez]; apply binary_round_aux_not_nan; lia.
Qed.

Lemma sub_not_nan (x y : number) :
  is_finite x = true -> y <> NaN -> sub x y <> NaN.
Proof.
  unfold sub, SFsub, NaN.
  destruct x as [sx | sx | | sx mx ex]; cbn [is_finite]; try discriminate;
    intros _ Hy; destruct y as [sy | sy | | sy my ey]; try congruence;
    try discriminate.
  - destruct sx, sy; discriminate.
  - apply binary_normalize_not_nan.
Qed.

(** *** The twelfth root of two *)

Lemma root_pos : (0 < twelfth_root_of_two)%R.
Proof. unfold twelfth_root_of_two, Rpower. apply exp_pos. Qed.

Lemma root_pow12 : (twelfth_root_of_two ^ 12 = 2)%R.
Proof.
  unfold twelfth_root_of_two.
  rewrite <- (Rpower_pow 12 (Rpower 2 (/ 12))) by (unfold Rpower; apply exp_pos).
  rewrite Rpower_mult.
  replace (/ 12 * INR 12)%R with 1%R.
  - apply Rpower_1. lra.
  - rewrite INR_IZR_INZ. cbn. lra.
Qed.

Lemma pow12_lt (x y : R) : (0 <= x < y)%R -> (x ^ 12 < y ^ 12)%R.
Proof.
  intros [Hx Hxy].
  assert (H : forall n : nat, (x ^ S n < y ^ S n)%R).
  { induction n as [ | n IH].
    - simpl. lra.
    - change (x ^ S (S n))%R with (x * x ^ S n)%R.
      change (y ^ S (S n))%R with (y * y ^ S n)%R.
      assert (0 <= x ^ S n)%R by (apply pow_le; exact Hx).
      nra. }
  apply (H 11%nat).
Qed.

Lemma Q2R_pow12 (q : Q) : Q2R (pow12 q) = (Q2R q ^ 12)%R.
Proof. unfold pow12. rewrite !Q2R_mult. ring. Qed.

Lemma Q2R_2 : Q2R 2 = 2%R.
Proof. unfold Q2R. cbn. lra. Qed.

(** A rational whose twelfth power is at most 2 lies below the root, and
    one whose twelfth power is at least 2 lies above it. *)
Lemma below_root (q : Q) : (pow12 q <= 2)%Q -> (Q2R q <= twelfth_root_of_two)%R.
Proof.
  intros H. apply Qle_Rle in H. rewrite Q2R_pow12, Q2R_2 in H.
  destruct (Rle_or_lt (Q2R q) twelfth_root_of_two) as [Hle | Hlt]; [ exact Hle | ].
  pose proof root_pos as Hp.
  assert (Hc : (twelfth_root_of_two ^ 12 < Q2R q ^ 12)%R) by (apply pow12_lt; lra).
  rewrite root_pow12 in Hc. lra.
Qed.

Lemma above_root (q : Q) :
  (0 <= Q2R q)%R -> (2 <= pow12 q)%Q -> (twelfth_root_of_two <= Q2R q)%R.
Proof.
  intros Hq H. apply Qle_Rle in H. rewrite Q2R_pow12, Q2R_2 in H.
  destruct (Rle_or_lt twelfth_root_of_two (Q2R q)) as [Hle | Hlt]; [ exact Hle | ].
  assert (Hc : (Q2R q ^ 12 < twelfth_root_of_two ^ 12)%R) by (apply pow12_lt; lra).
  rewrite root_pow12 in Hc. lra.
Qed.

Lemma Q2R_tolerance : Q2R tolerance = (/ 1000000000)%R.
Proof. unfold Q2R, tolerance. cbn. lra. Qed.

Lemma near_root_sound (r : Q) :
  near_root r = true ->
  (Rabs (Q2R r - twelfth_root_of_two) <= Q2R tolerance * twelfth_root_of_two)%R.
Proof.
  unfold near_root. intros H.
  apply andb_true_iff in H. destruct H as [H Hhi].
  apply andb_true_iff in H. destruct H as [H0 Hlo].
  apply Qle_bool_iff in H0. apply Qle_bool_iff in Hlo. apply Qle_bool_iff in Hhi.
  apply Qle_Rle in H0. replace (Q2R 0) with 0%R in H0 by (unfold Q2R; cbn; lra).
  assert (Ep : Q2R (1 + tolerance) = (1 + / 1000000000)%R).
  { rewrite Q2R_plus, Q2R_tolerance. unfold Q2R. cbn. lra. }
  assert (Em : Q2R (1 - tolerance) = (1 - / 1000000000)%R).
  { rewrite Q2R_minus, Q2R_tolerance. unfold Q2R. cbn. lra. }
  assert (Dp : Q2R (r / (1 + tolerance)) = (Q2R r / (1 + / 1000000000))%R).
  { rewrite Q2R_div, Ep; [ reflexivity | ]. intros Hz. discriminate Hz. }
  assert (Dm : Q2R (r / (1 - tolerance)) = (Q2R r / (1 - / 1000000000))%R).
  { rewrite Q2R_div, Em; [ reflexivity | ]. intros Hz. discriminate Hz. }
  apply below_root in Hlo. rewrite Dp in Hlo.
  apply above_root in Hhi.
  2:{ rewrite Dm. apply Rmult_le_pos; [ exact H0 | ].
      apply Rlt_le, Rinv_0_lt_compat. lra. }
  rewrite Dm in Hhi.
  rewrite Q2R_tolerance.
  pose proof root_pos as Hp.
  set (s := twelfth_root_of_two) in *. set (x := Q2R r) in *.
  assert (Hup : (x <= s * (1 + / 1000000000))%R).
  { apply (Rmult_le_compat_r (1 + / 1000000000)) in Hlo; [ | lra ].
    unfold Rdiv in Hlo. rewrite Rmult_assoc, Rinv_l in Hlo; lra. }
  assert (Hdown : (s * (1 - / 1000000000) <= x)%R).
  { apply (Rmult_le_compat_r (1 - / 1000000000)) in Hhi; [ | lra ].
    unfold Rdiv in Hhi. rewrite Rmult_assoc, Rinv_l in Hhi; lra. }
  apply Rabs_le. lra.
Qed.

Lemma semitone_apart_sound (f f' : number) :
  semitone_apart f f' = true ->
  ltb f f' = true /\
  (0 < to_R f < to_R f')%R /\
  (Rabs (to_R f' / to_R f - twelfth_root_of_two)
   <= Q2R tolerance * twelfth_root_of_two)%R.
Proof.
  unfold semitone_apart. intros H.
  repeat match type of H with
         | (_ && _ = true) => apply andb_true_iff in H; let H' := fresh "H" in destruct H as [H H']
         end.
  assert (Hpos : (0 < to_Q f)%Q).
  { apply Qnot_le_lt. intros Hle. apply Qle_bool_iff in Hle.
    rewrite Hle in H2. discriminate. }
  assert (Hlt : (to_Q f < to_Q f')%Q).
  { apply Qnot_le_lt. intros Hle. apply Qle_bool_iff in Hle.
    rewrite Hle in H1. discriminate. }
  split; [ exact H | split; [ split | ] ].
  - apply Qlt_Rlt in Hpos. unfold to_R.
    replace (Q2R 0) with 0%R in Hpos by (unfold Q2R; cbn; lra). exact Hpos.
  - apply Qlt_Rlt. exact Hlt.
  - unfold to_R. rewrite <- Q2R_div.
    + apply near_root_sound. exact H0.
    + intros Hz. rewrite Hz in Hpos. discriminate Hpos.
Qed.

(** The constant taken for Math.pow(2, 1/12) is the binary64 value nearest
    to the twelfth root of two: the root lies within half a unit in the
    last place, 2^-53, of it. *)
Lemma semitone_nearest :
  (Rabs (to_R semitone - twelfth_root_of_two) <= / 2 ^ 53)%R.
Proof.
  assert (Hlo : (pow12 (to_Q semitone - (1 # 9007199254740992)) <= 2)%Q)
    by (apply Qle_bool_iff; vm_compute; reflexivity).
  assert (Hhi : (2 <= pow12 (to_Q semitone + (1 # 9007199254740992)))%Q)
    by (apply Qle_bool_iff; vm_compute; reflexivity).
  assert (Hu : Q2R (1 # 9007199254740992) = (/ 2 ^ 53)%R).
  { unfold Q2R. cbn [Qnum Qden]. rewrite Rmult_1_l, pow_IZR.
    apply f_equal, f_equal. reflexivity. }
  assert (Hs : (0 <= to_R semitone)%R).
  { unfold to_R. replace 0%R with (Q2R 0) by (unfold Q2R; cbn; lra).
    apply Qle_Rle. apply Qle_bool_iff. vm_compute. reflexivity. }
  assert (Hp : (0 < / 2 ^ 53)%R) by (apply Rinv_0_lt_compat, pow_lt; lra).
  apply below_root in Hlo. rewrite Q2R_minus, Hu in Hlo.
  apply above_root in Hhi.
  - rewrite Q2R_plus, Hu in Hhi. unfold to_R. apply Rabs_le. lra.
  - rewrite Q2R_plus, Hu. unfold to_R in Hs. lra.
Qed.

(** ** The table *)

Lemma table_length : length getNotesInfo = 88%nat.
Proof. vm_compute. reflexivity. Qed.

Lemma table_keys : map Note.keynb getNotesInfo = keys_upto 88.
Proof. vm_compute. reflexivity. Qed.

Lemma table_key_values :
  map (fun n => Qred (to_Q (Note.keynb n))) getNotesInfo
  = map (fun i => inject_Z (Z.of_nat i)) (seq 1 88).
Proof. vm_compute. reflexivity. Qed.

(** C1: getNotesInfo() returns exactly 88 records and their key numbers
    are the integers 1, 2, ..., 88 in this order, as Numbers and in exact
    value. *)
Theorem getNotesInfo_88_keys :
  length getNotesInfo = 88%nat /\
  map Note.keynb getNotesInfo = keys_upto 88 /\
  map (fun n => Qred (to_Q (Note.keynb n))) getNotesInfo
  = map (fun i => inject_Z (Z.of_nat i)) (seq 1 88).
Proof.
  split; [ exact table_length | split; [ exact table_keys | exact table_key_values ] ].
Qed.

Lemma same_record_eq (a b : Note.t) : same_record a b = true -> a = b.
Proof.
  destruct a as [k f s], b as [k' f' s']. unfold same_record. cbn [Note.keynb Note.freq Note.name].
  intros H. apply andb_true_iff in H. destruct H as [H Hs].
  apply andb_true_iff in H. destruct H as [Hk Hf].
  apply same_number_eq in Hk. apply same_number_eq in Hf. apply String.eqb_eq in Hs.
  congruence.
Qed.

(** A property checked on every key of a range holds on the range. *)
Lemma forallb_range (P : Z -> bool) (n : nat) :
  forallb P (map Z.of_nat (seq 1 n)) = true ->
  forall i : Z, 1 <= i <= Z.of_nat n -> P i = true.
Proof.
  intros H i Hi. rewrite forallb_forall in H. apply H.
  apply in_map_iff. exists (Z.to_nat i). split; [ lia | ].
  apply in_seq. lia.
Qed.

Lemma table_key (i : Z) :
  1 <= i <= 88 ->
  exists n : Note.t,
    record_of_key i = Some n /\
    Note.keynb n = of_Z i /\
    (forall k, eqb (of_Z i) k = true ->
               find (fun e => eqb (Note.keynb e) k) getNotesInfo = Some n).
Proof.
  intros Hi.
  assert (Hc : key_checked i = true).
  { apply (forallb_range key_checked 88); [ vm_compute; reflexivity | exact Hi ]. }
  unfold key_checked in Hc.
  destruct (record_of_key i) as [n | ]; [ | discriminate ].
  destruct (find _ getNotesInfo) as [n' | ] eqn:Hfind; [ | discriminate ].
  apply andb_true_iff in Hc. destruct Hc as [Hc Hpos].
  apply andb_true_iff in Hc. destruct Hc as [Hrec Hkey].
  apply same_record_eq in Hrec. apply same_number_eq in Hkey. subst n'.
  exists n. repeat split; [ exact Hkey | ].
  intros k Hk.
  destruct (of_Z i) as [ | | | [ | ] m e ] eqn:Hz; try discriminate.
  apply eqb_positive_eq in Hk. subst k. exact Hfind.
Qed.

Lemma table_keys_in (n : Note.t) :
  In n getNotesInfo -> exists i : Z, 1 <= i <= 88 /\ Note.keynb n = of_Z i.
Proof.
  intros Hin.
  apply (in_map Note.keynb) in Hin.
  rewrite table_keys in Hin.
  unfold keys_upto in Hin. apply in_map_iff in Hin.
  destruct Hin as (j & Hj & Hseq). apply in_seq in Hseq.
  exists (Z.of_nat j). split; [ lia | symmetry; exact Hj ].
Qed.

Lemma key_eqb_refl (i : Z) : 1 <= i <= 88 -> eqb (of_Z i) (of_Z i) = true.
Proof.
  apply (forallb_range (fun i => eqb (of_Z i) (of_Z i)) 88).
  vm_compute. reflexivity.
Qed.

Lemma record_of_key_in (i : Z) (n : Note.t) :
  record_of_key i = Some n -> In n getNotesInfo.
Proof. unfold record_of_key. apply nth_error_In. Qed.

Lemma table_finite (e : Note.t) : In e getNotesInfo -> is_finite (Note.freq e) = true.
Proof.
  assert (H : forallb (fun e => is_finite (Note.freq e)) getNotesInfo = true)
    by (vm_compute; reflexivity).
  rewrite forallb_forall in H. exact (H e).
Qed.

(** *** Frequencies *)

Lemma table_steps (i : Z) : 1 <= i <= 87 -> step_checked i = true.
Proof. apply (forallb_range step_checked 87). vm_compute. reflexivity. Qed.

(** C2: in the table of getNotesInfo(), each frequency is strictly above
    the one before, and the ratio of each frequency to the one before is
    the twelfth root of two within the relative tolerance 1e-9. *)
Theorem frequencies_semitone_apart (i : Z) (n n' : Note.t) :
  1 <= i <= 87 ->
  record_of_key i = Some n ->
  record_of_key (i + 1) = Some n' ->
  ltb (Note.freq n) (Note.freq n') = true /\
  (0 < to_R (Note.freq n) < to_R (Note.freq n'))%R /\
  (Rabs (to_R (Note.freq n') / to_R (Note.freq n) - twelfth_root_of_two)
   <= / 1000000000 * twelfth_root_of_two)%R.
Proof.
  intros Hi Hn Hn'. pose proof (table_steps i Hi) as Hc.
  unfold step_checked in Hc. rewrite Hn, Hn' in Hc.
  rewrite <- Q2R_tolerance. apply semitone_apart_sound. exact Hc.
Qed.

Lemma frequencies_semitone_apart_witness :
  exists n n' : Note.t,
    record_of_key 48 = Some n /\ record_of_key 49 = Some n' /\
    ltb (Note.freq n) (Note.freq n') = true /\
    (0 < to_R (Note.freq n) < to_R (Note.freq n'))%R /\
    (Rabs (to_R (Note.freq n') / to_R (Note.freq n) - twelfth_root_of_two)
     <= / 1000000000 * twelfth_root_of_two)%R.
Proof.
  destruct (record_of_key 48) as [n | ] eqn:Hn;
    [ | exfalso; vm_compute in Hn; discriminate Hn ].
  destruct (record_of_key 49) as [n' | ] eqn:Hn';
    [ | exfalso; vm_compute in Hn'; discriminate Hn' ].
  exists n, n'. split; [ reflexivity | split; [ reflexivity | ] ].
  apply (frequencies_semitone_apart 48 n n'); [ lia | exact Hn | exact Hn' ].
Defined.

(** *** The anchor keys *)

Lemma key_is_checked_sound (i : Z) (nm : string) (target tol : Q) :
  key_is_checked i nm target tol = true -> key_is i nm target tol.
Proof.
  unfold key_is_checked, key_is.
  destruct (record_of_key i) as [n | ]; [ | discriminate ].
  intros H. apply andb_true_iff in H. destruct H as [H Htol].
  apply andb_true_iff in H. destruct H as [Hname Hfin].
  exists n. repeat split.
  - apply String.eqb_eq. exact Hname.
  - exact Hfin.
  - apply Qle_bool_iff. exact Htol.
Qed.

(** C3, the code at the anchor keys: key 1 is named A0 with a frequency
    within 0.01 of 27.5, key 49 is named A4 with a frequency within 0.01
    of 440, and key 88 has a frequency within 1 of 4186 but is named C7;
    the table has no record named C8. *)
Theorem table_anchor_keys :
  key_is 1 "A0" (275 # 10) (1 # 100) /\
  key_is 49 "A4" 440 (1 # 100) /\
  key_is 88 "C7" 4186 1 /\
  find (fun e => String.eqb (Note.name e) "C8") getNotesInfo = None.
Proof.
  split; [ | split; [ | split ] ];
    try (apply key_is_checked_sound; vm_compute; reflexivity).
  vm_compute. reflexivity.
Qed.

(** ** The constructor *)

Lemma new_notePlayer_built_from (h : host) (n : Note.t) (ac : value) :
  built_from n (snd (new_notePlayer h n ac)).
Proof.
  unfold new_notePlayer, built_from.
  assert (Hsel : forall (r : thrown + value) (this : notePlayer),
             built_from n this ->
             built_from n
               (snd match r with
                    | inl err => ([console_error "" err], this)
                    | inr a =>
                        match get_destination h a with
                        | inl err => ([console_error "" err], set_audioContext a this)
                        | inr dn =>
                            ([], set_destinationNode dn (set_audioContext a this))
                        end
                    end)).
  { intros [err | a] this Hb; [ exact Hb | ].
    destruct (get_destination h a); exact Hb. }
  apply Hsel. repeat split.
Qed.

(** ** buildFromName *)

Lemma octave_rejected (h : host) (noteName : string) (ac : value) (z : Z) :
  parseInt (slice_last noteName) = Some z ->
  z < 1 \/ 8 < z ->
  buildFromName h (Some noteName) ac
  = failure (ThrowString ("Invalid octave: " ++ noteName)) buildFromName_usage.
Proof.
  intros Hp Hz. unfold buildFromName. rewrite Hp. cbn [parsed_ltb parsed_gtb].
  assert (Hg : (z <? 1) || (8 <? z) = true).
  { apply orb_true_iff. destruct Hz; [ left | right ]; apply Z.ltb_lt; assumption. }
  rewrite Hg. reflexivity.
Qed.

(** C6: when the last character of the name parses to an integer below 1
    or above 8, buildFromName logs the invalid octave with the usage hint
    on the console and returns null. *)
Theorem buildFromName_invalid_octave
        (h : host) (noteName : string) (ac : value) (z : Z) :
  parseInt (slice_last noteName) = Some z ->
  z < 1 \/ 8 < z ->
  buildFromName h (Some noteName) ac
  = failure (ThrowString ("Invalid octave: " ++ noteName)) buildFromName_usage.
Proof. exact (octave_rejected h noteName ac z). Qed.

Lemma buildFromName_invalid_octave_witness :
  buildFromName example_host (Some "Z9"%string) VUndefined
  = failure (ThrowString "Invalid octave: Z9") buildFromName_usage.
Proof.
  apply (buildFromName_invalid_octave example_host "Z9" VUndefined 9).
  - reflexivity.
  - right. lia.
Defined.

(** What the octave check and the translation do on a flat and on its
    sharp, followed by one octave digit. *)
Lemma flat_and_sharp (flat sharp : string) (d : Z) :
  In (flat, sharp) DICT_TRANSLATIONS ->
  1 <= d <= 8 ->
  parseInt (slice_last (flat ++ string_of_Z d)) = Some d /\
  translate (flat ++ string_of_Z d) = (sharp ++ string_of_Z d)%string /\
  parseInt (slice_last (sharp ++ string_of_Z d)) = Some d /\
  translate (sharp ++ string_of_Z d) = (sharp ++ string_of_Z d)%string.
Proof.
  intros Hin Hd.
  assert (Hc : d = 1 \/ d = 2 \/ d = 3 \/ d = 4 \/ d = 5 \/ d = 6 \/ d = 7 \/ d = 8)
    by lia.
  cbn in Hin.
  repeat match goal with
         | H : _ \/ _ |- _ => destruct H
         | H : (_, _) = (_, _) |- _ => injection H as <- <-
         | H : False |- _ => destruct H
         end; subst d; repeat split.
Qed.

(** The result of buildFromName is decided by the table lookup of the
    translated name once the octave check has passed. *)
Lemma buildFromName_checked (h : host) (noteName : string) (ac : value) (d : Z) :
  parseInt (slice_last noteName) = Some d ->
  1 <= d <= 8 ->
  buildFromName h (Some noteName) ac
  = catch buildFromName_usage
      match find (fun e => String.eqb (Note.name e) (translate noteName)) getNotesInfo with
      | None =>
          throw (ThrowString ("Invalid note name: " ++ translate noteName ++
                              ", did you forget to mention the octave nb ?"))
      | Some n => ret (constructed (new_notePlayer h n ac))
      end.
Proof.
  intros Hp Hd. unfold buildFromName. rewrite Hp. cbn [parsed_ltb parsed_gtb].
  assert (Hg : (d <? 1) || (8 <? d) = false).
  { apply orb_false_iff. split; apply Z.ltb_ge; lia. }
  rewrite Hg. reflexivity.
Qed.





Lemma lookup_translations (key t : string) :
  lookup key DICT_TRANSLATIONS = Some t ->
  In t ["B"; "C#"; "D#"; "E"; "F#"; "G#"; "A#"]%string.
Proof.
  unfold DICT_TRANSLATIONS, lookup.
  repeat match goal with
         | |- context [String.eqb ?a key] => destruct (String.eqb a key)
         end;
    intros H; try discriminate; injection H as <-; cbn; tauto.
Qed.

(** A name that passed the octave check is never looked up under a name
    ending in the digit 0. *)
Lemma translate_last (noteName : string) :
  parsed_ltb (parseInt (slice_last noteName)) 1
  || parsed_gtb (parseInt (slice_last noteName)) 8 = false ->
  slice_last (translate noteName) <> "0"%string.
Proof.
  intros Hg. unfold translate.
  destruct (lookup (slice_0_2 noteName) DICT_TRANSLATIONS) as [t | ] eqn:Hl.
  - apply lookup_translations in Hl.
    destruct (parseInt (slice_last noteName)) as [z | ].
    + cbn [parsed_ltb parsed_gtb] in Hg. apply orb_false_iff in Hg.
      destruct Hg as [H1 H8]. apply Z.ltb_ge in H1. apply Z.ltb_ge in H8.
      assert (Hc : z = 1 \/ z = 2 \/ z = 3 \/ z = 4 \/ z = 5 \/ z = 6 \/ z = 7 \/ z = 8)
        by lia.
      cbn in Hl.
      repeat match goal with
             | H : _ \/ _ |- _ => destruct H
             | H : False |- _ => destruct H
             end; subst; discriminate.
    + cbn in Hl.
      repeat match goal with
             | H : _ \/ _ |- _ => destruct H
             | H : False |- _ => destruct H
             end; subst; discriminate.
  - intros H0. rewrite H0 in Hg. discriminate.
Qed.

(** Every player buildFromName returns comes from a table record whose
    name does not end in the digit 0. *)
Lemma buildFromName_some (h : host) (noteName : option string) (ac : value)
      (out : console) (np : notePlayer) :
  buildFromName h noteName ac = (out, Some np) ->
  exists n : Note.t,
    In n getNotesInfo /\ built_from n np /\ slice_last (Note.name n) <> "0"%string.
Proof.
  unfold buildFromName. destruct noteName as [s | ]; [ | discriminate ].
  destruct (parsed_ltb _ 1 || parsed_gtb _ 8) eqn:Hg; [ discriminate | ].
  destruct (find _ getNotesInfo) as [n | ] eqn:Hfind; [ | discriminate ].
  apply find_some in Hfind. destruct Hfind as [Hin Hname].
  apply String.eqb_eq in Hname.
  unfold catch. pose proof (new_notePlayer_built_from h n ac) as Hb.
  destruct (new_notePlayer h n ac) as [out' np']. intros H. injection H as _ <-.
  exists n. repeat split; try apply Hb; try assumption.
  rewrite Hname. apply translate_last. exact Hg.
Qed.

(** ** buildFromKeyNb *)

Lemma buildFromKeyNb_found (h : host) (k : number) (ac : value) (n : Note.t) :
  find (fun e => eqb (Note.keynb e) k) getNotesInfo = Some n ->
  exists (out : console) (np : notePlayer),
    buildFromKeyNb h (Some k) ac = (out, Some np) /\ built_from n np.
Proof.
  intros Hfind. unfold buildFromKeyNb. rewrite Hfind. unfold catch.
  pose proof (new_notePlayer_built_from h n ac) as Hb.
  destruct (new_notePlayer h n ac) as [out np].
  exists out, np. split; [ reflexivity | exact Hb ].
Qed.

Lemma buildFromKeyNb_absent (h : host) (k : number) (ac : value) :
  (forall i, 1 <= i <= 88 -> eqb (of_Z i) k = false) ->
  buildFromKeyNb h (Some k) ac
  = failure (ThrowStringNumber "Invalid keyNumber: " k ", has to be within range 1-88")
            buildFromKeyNb_usage.
Proof.
  intros Hk. unfold buildFromKeyNb.
  destruct (find _ getNotesInfo) as [n | ] eqn:Hfind; [ | reflexivity ].
  apply find_some in Hfind. destruct Hfind as [Hin Heq].
  destruct (table_keys_in n Hin) as (i & Hi & Hn).
  rewrite Hn, (Hk i Hi) in Heq. discriminate.
Qed.

(** C7: for a Number k, buildFromKeyNb returns a player whose key number,
    frequency, name and octave are those of the table record of key i when
    k equals an integer i of 1..88, and logs the failure and returns null
    when k equals none of them; key 49 gives the name "A4", and 0 and 89
    give null. *)
Theorem buildFromKeyNb_found_or_null (h : host) (ac : value) :
  (forall (k : number) (i : Z),
      1 <= i <= 88 -> eqb (of_Z i) k = true ->
      exists (n : Note.t) (out : console) (np : notePlayer),
        record_of_key i = Some n /\ Note.keynb n = of_Z i /\
        buildFromKeyNb h (Some k) ac = (out, Some np) /\ built_from n np) /\
  (forall k : number,
      (forall i, 1 <= i <= 88 -> eqb (of_Z i) k = false) ->
      buildFromKeyNb h (Some k) ac
      = failure (ThrowStringNumber "Invalid keyNumber: " k
                                   ", has to be within range 1-88")
                buildFromKeyNb_usage) /\
  (exists (out : console) (np : notePlayer),
      buildFromKeyNb h (Some (of_Z 49)) ac = (out, Some np) /\
      name np = VStr "A4") /\
  snd (buildFromKeyNb h (Some (of_Z 0)) ac) = None /\
  snd (buildFromKeyNb h (Some (of_Z 89)) ac) = None.
Proof.
  split; [ | split; [ | split; [ | split ] ] ].
  - intros k i Hi Hk.
    destruct (table_key i Hi) as (n & Hrec & Hkey & Hfind).
    destruct (buildFromKeyNb_found h k ac n (Hfind k Hk)) as (out & np & Hb & Hnp).
    exists n, out, np. repeat split; try assumption; apply Hnp.
  - intros k Hk. exact (buildFromKeyNb_absent h k ac Hk).
  - destruct (table_key 49) as (n & Hrec & _ & Hfind); [ lia | ].
    assert (Hk : eqb (of_Z 49) (of_Z 49) = true) by (vm_compute; reflexivity).
    destruct (buildFromKeyNb_found h (of_Z 49) ac n (Hfind _ Hk))
      as (out & np & Hb & _ & _ & Hname & _).
    exists out, np. split; [ exact Hb | ].
    assert (Hs : option_map Note.name (record_of_key 49) = Some "A4"%string)
      by (vm_compute; reflexivity).
    rewrite Hrec in Hs. injection Hs as Hs. rewrite Hname, Hs. reflexivity.
  - vm_compute. reflexivity.
  - vm_compute. reflexivity.
Qed.

Lemma buildFromKeyNb_found_or_null_witness :
  exists (n : Note.t) (out : console) (np : notePlayer),
    record_of_key 49 = Some n /\ Note.keynb n = of_Z 49 /\
    buildFromKeyNb example_host (Some (of_Z 49)) VUndefined = (out, Some np) /\
    built_from n np.
Proof.
  destruct (buildFromKeyNb_found_or_null example_host VUndefined) as (Hfound & _).
  apply (Hfound (of_Z 49) 49).
  - lia.
  - reflexivity.
Defined.

(** ** The first twelve records *)

(** The records of keys 1..12 are those of octave 0. *)
Lemma first_octave_names (n : Note.t) (i : Z) :
  In n getNotesInfo -> 1 <= i <= 12 -> Note.keynb n = of_Z i ->
  slice_last (Note.name n) = "0"%string.
Proof.
  intros Hin Hi Hk.
  assert (Hall : forallb (fun n => first_octave_checked n) getNotesInfo = true)
    by (vm_compute; reflexivity).
  rewrite forallb_forall in Hall. specialize (Hall n Hin).
  unfold first_octave_checked in Hall.
  assert (Hex : existsb (fun j => same_number (Note.keynb n) (of_Z j))
                        (map Z.of_nat (seq 1 12)) = true).
  { apply existsb_exists. exists i. split.
    - apply in_map_iff. exists (Z.to_nat i). split; [ lia | apply in_seq; lia ].
    - rewrite Hk. clear. destruct (of_Z i) as [ [ | ] | [ | ] | | s m e ]; cbn;
        try reflexivity.
      rewrite Bool.eqb_reflx, Pos.eqb_refl, Z.eqb_refl. reflexivity. }
  rewrite Hex in Hall. cbn [implb] in Hall. apply String.eqb_eq in Hall. exact Hall.
Qed.

(** No call of buildFromName gives a player for one of the keys 1..12. *)
Lemma buildFromName_not_first_octave (h : host) (noteName : option string)
      (ac : value) (out : console) (np : notePlayer) (i : Z) :
  1 <= i <= 12 ->
  buildFromName h noteName ac = (out, Some np) ->
  pianoKeyNb np <> VNum (of_Z i).
Proof.
  intros Hi Hb Hkey.
  destruct (buildFromName_some h noteName ac out np Hb) as (n & Hin & Hbuilt & Hlast).
  destruct Hbuilt as (Hk & _). rewrite Hk in Hkey. injection Hkey as Hkey.
  apply Hlast. exact (first_octave_names n i Hin Hi Hkey).
Qed.

Lemma lower_octave_rejected (h : host) (ac : value) (n : Note.t) :
  In n (firstn 12 getNotesInfo) ->
  buildFromName h (Some (Note.name n)) ac
  = failure (ThrowString ("Invalid octave: " ++ Note.name n)) buildFromName_usage.
Proof.
  intros Hin.
  assert (H : forallb octave_zero (firstn 12 getNotesInfo) = true)
    by (vm_compute; reflexivity).
  rewrite forallb_forall in H. specialize (H n Hin).
  unfold octave_zero in H. apply String.eqb_eq in H.
  apply (octave_rejected h (Note.name n) ac 0).
  - rewrite H. reflexivity.
  - left. lia.
Qed.

Lemma upper_octaves_resolve (h : host) (ac : value) (n : Note.t) :
  In n (skipn 12 getNotesInfo) ->
  exists (out : console) (np : notePlayer),
    buildFromName h (Some (Note.name n)) ac = (out, Some np) /\ built_from n np.
Proof.
  intros Hin.
  assert (H : forallb name_resolves (skipn 12 getNotesInfo) = true)
    by (vm_compute; reflexivity).
  rewrite forallb_forall in H. specialize (H n Hin).
  unfold name_resolves in H.
  destruct (parseInt (slice_last (Note.name n))) as [dg | ] eqn:Hp; [ | discriminate ].
  apply andb_true_iff in H. destruct H as [H Hfind].
  apply andb_true_iff in H. destruct H as [H Htr].
  apply andb_true_iff in H. destruct H as [H1 H8].
  apply Z.leb_le in H1. apply Z.leb_le in H8. apply String.eqb_eq in Htr.
  rewrite (buildFromName_checked h _ ac dg Hp (conj H1 H8)). rewrite Htr.
  destruct (find _ getNotesInfo) as [n' | ]; [ | discriminate ].
  apply same_record_eq in Hfind. subst n'.
  unfold catch. pose proof (new_notePlayer_built_from h n ac) as Hb.
  destruct (new_notePlayer h n ac) as [out np].
  exists out, np. split; [ reflexivity | exact Hb ].
Qed.

(** Whatever buildFromFrequency returns besides null, buildFromName
    returned it for some name. *)
Lemma buildFromFrequency_some (h : host) (noteFreq : option number) (ac : value)
      (out : console) (np : notePlayer) :
  buildFromFrequency h noteFreq ac = (out, Some np) ->
  exists s : string, buildFromName h (Some s) ac = (out, Some np).
Proof.
  unfold buildFromFrequency, element.
  destruct noteFreq as [f | ]; [ | discriminate ].
  destruct (nth_error getNotesInfo 0) as [first | ]; [ | discriminate ].
  cbn [bind ret].
  destruct (nth_error getNotesInfo _) as [last | ]; [ | discriminate ].
  cbn [bind ret].
  destruct (ltb f (Note.freq first) || gtb f (Note.freq last)); [ discriminate | ].
  destruct (reduce (nearer f) getNotesInfo) as [e | closest]; [ discriminate | ].
  intros H. exists (Note.name closest). exact H.
Qed.

(** For every key k of 1..12 the table record is an octave-0 name;
    buildFromKeyNb(k) returns a player built from it, while buildFromName
    on the name of that record logs the invalid octave and returns null,
    and no call of buildFromName at all returns a player for that key:
    these records are reachable by key number and never by name. *)
Lemma first_octave_by_key_not_by_name (k : Z) :
  1 <= k <= 12 ->
  exists n : Note.t,
    record_of_key k = Some n /\
    slice_last (Note.name n) = "0"%string /\
    (forall (h : host) (ac : value),
        exists (out : console) (np : notePlayer),
          buildFromKeyNb h (Some (of_Z k)) ac = (out, Some np) /\ built_from n np) /\
    (forall (h : host) (ac : value),
        buildFromName h (Some (Note.name n)) ac
        = failure (ThrowString ("Invalid octave: " ++ Note.name n))
                  buildFromName_usage) /\
    (forall (h : host) (noteName : option string) (ac : value)
            (out : console) (np : notePlayer),
        buildFromName h noteName ac = (out, Some np) ->
        pianoKeyNb np <> VNum (Note.keynb n)).
Proof.
  intros Hk.
  destruct (table_key k) as (n & Hrec & Hkey & Hfind); [ lia | ].
  assert (Hlast : slice_last (Note.name n) = "0"%string).
  { apply (first_octave_names n k); [ exact (record_of_key_in k n Hrec) | exact Hk | exact Hkey ]. }
  exists n. split; [ exact Hrec | split; [ exact Hlast | split; [ | split ] ] ].
  - intros h ac. apply buildFromKeyNb_found. apply Hfind. apply key_eqb_refl. lia.
  - intros h ac. apply (octave_rejected h (Note.name n) ac 0).
    + rewrite Hlast. reflexivity.
    + left. lia.
  - intros h noteName ac out np Hb. rewrite Hkey.
    exact (buildFromName_not_first_octave h noteName ac out np k Hk Hb).
Qed.

(** C10, the code on the frequency path: 27.5 is the frequency of the
    record of key 1, buildFromFrequency(27.5) hands the name A0 to
    buildFromName and returns its null, and no frequency at all gives a
    player for key 1, so the first twelve records are not reachable by
    frequency. *)
Theorem first_octave_not_by_frequency :
  option_map Note.freq (record_of_key 1) = Some (decimal 275 1) /\
  buildFromFrequency example_host (Some (decimal 275 1)) VUndefined
  = failure (ThrowString "Invalid octave: A0") buildFromName_usage /\
  ~ (exists (h : host) (f : number) (ac : value) (out : console) (np : notePlayer),
        buildFromFrequency h (Some f) ac = (out, Some np) /\
        pianoKeyNb np = VNum (of_Z 1)).
Proof.
  split; [ vm_compute; reflexivity | split; [ vm_compute; reflexivity | ] ].
  intros (h & f & ac & out & np & Hb & Hkey).
  destruct (buildFromFrequency_some h (Some f) ac out np Hb) as (s & Hs).
  apply (buildFromName_not_first_octave h (Some s) ac out np 1); [ lia | exact Hs | exact Hkey ].
Qed.

(** ** buildFromFrequency *)

Section Search.

Variable noteFreq : number.

Local Abbreviation d := (distance noteFreq).
Local Abbreviation search := (fold_left (nearer noteFreq)).

Lemma nearer_cases (prev curr : Note.t) :
  (ltb (d curr) (d prev) = true /\ nearer noteFreq prev curr = curr) \/
  (ltb (d curr) (d prev) = false /\ nearer noteFreq prev curr = prev).
Proof.
  unfold nearer, distance.
  destruct (ltb _ _); [ left | right ]; split; reflexivity.
Qed.

(** The search keeps the first record of least distance: the result is
    strictly nearer than every record before it, and no record after it is
    strictly nearer.  [pre] and [mid] are the records already visited
    before and after the best one so far. *)
Lemma search_first_least (l pre mid : list Note.t) (best : Note.t) :
  (forall e, In e pre -> ltb (d best) (d e) = true) ->
  (forall e, In e mid -> ltb (d e) (d best) = false) ->
  (forall e, In e mid -> d e <> NaN) ->
  (forall e, In e l -> d e <> NaN) ->
  exists pre' post' : list Note.t,
    pre ++ best :: mid ++ l = pre' ++ search l best :: post' /\
    (forall e, In e pre' -> ltb (d (search l best)) (d e) = true) /\
    (forall e, In e post' -> ltb (d e) (d (search l best)) = false).
Proof.
  revert pre mid best.
  induction l as [ | curr l IH]; intros pre mid best Hpre Hmid Hnm Hnl.
  - exists pre, mid. rewrite app_nil_r. cbn. auto.
  - cbn [fold_left].
    assert (Hnl' : forall e, In e l -> d e <> NaN)
      by (intros e He; apply Hnl; right; exact He).
    destruct (nearer_cases best curr) as [[Hlt ->] | [Hge ->]].
    + destruct (IH (pre ++ best :: mid) [] curr) as (pre' & post' & Heq & Hp & Hq).
      * intros e He. apply in_app_or in He. destruct He as [He | [<- | He]].
        -- exact (ltb_trans _ _ _ Hlt (Hpre e He)).
        -- exact Hlt.
        -- exact (ltb_le_trans _ _ _ Hlt (Hmid e He) (Hnm e He)).
      * intros e [].
      * intros e [].
      * exact Hnl'.
      * exists pre', post'. split; [ | split; assumption ].
        rewrite <- Heq. rewrite <- app_assoc. reflexivity.
    + destruct (IH pre (mid ++ [curr]) best) as (pre' & post' & Heq & Hp & Hq).
      * exact Hpre.
      * intros e He. apply in_app_or in He. destruct He as [He | [<- | []]];
          [ exact (Hmid e He) | exact Hge ].
      * intros e He. apply in_app_or in He. destruct He as [He | [<- | []]];
          [ exact (Hnm e He) | apply Hnl; left; reflexivity ].
      * exact Hnl'.
      * exists pre', post'. split; [ | split; assumption ].
        rewrite <- Heq. rewrite <- app_assoc. reflexivity.
Qed.

End Search.

Lemma distance_not_nan (noteFreq : number) (e : Note.t) :
  is_finite (Note.freq e) = true -> noteFreq <> NaN -> distance noteFreq e <> NaN.
Proof.
  intros He Hf. unfold distance, abs.
  pose proof (sub_not_nan _ _ He Hf) as Hs.
  destruct (sub (Note.freq e) noteFreq); cbn; try discriminate. exact Hs.
Qed.

(** X8: what buildFromFrequency does on a Number: out of the range of the
    table, it logs the failure and returns null; inside, the search settles
    on the first record of least distance, and the call returns null when
    that record is one of the first twelve and a player built from it
    otherwise. *)
Lemma buildFromFrequency_behaviour (h : host) (f : number) (ac : value) :
  (in_table_range f = false ->
   buildFromFrequency h (Some f) ac
   = failure (ThrowStringNumber "Invalid frequency (out of range 27.5-4186): " f "")
             buildFromFrequency_usage) /\
  (in_table_range f = true -> f <> NaN ->
   exists (c : Note.t) (pre post : list Note.t),
     closest f = Some c /\
     getNotesInfo = pre ++ c :: post /\
     (forall e, In e pre -> ltb (distance f c) (distance f e) = true) /\
     (forall e, In e post -> ltb (distance f e) (distance f c) = false) /\
     (In c (firstn 12 getNotesInfo) ->
      buildFromFrequency h (Some f) ac
      = failure (ThrowString ("Invalid octave: " ++ Note.name c)) buildFromName_usage) /\
     (In c (skipn 12 getNotesInfo) ->
      exists (out : console) (np : notePlayer),
        buildFromFrequency h (Some f) ac = (out, Some np) /\ built_from c np)).
Proof.
  unfold in_table_range, buildFromFrequency, closest, element.
  rewrite table_length. change (88 - 1)%nat with 87%nat.
  assert (Hends : exists first last l,
             getNotesInfo = first :: l /\
             nth_error getNotesInfo 0 = Some first /\
             nth_error getNotesInfo 87 = Some last).
  { pose proof table_length as Hlen.
    destruct (nth_error getNotesInfo 87) as [last | ] eqn:Hlast.
    - destruct getNotesInfo as [ | first l ]; [ discriminate Hlen | ].
      exists first, last, l. repeat split.
    - apply nth_error_None in Hlast. lia. }
  destruct Hends as (first & last & l & Htab & Hfirst & Hlast).
  rewrite Hfirst, Hlast. cbn [bind ret].
  destruct (ltb f (Note.freq first) || gtb f (Note.freq last));
    cbn [negb]; split; try discriminate; try reflexivity.
  intros _ Hf.
  assert (Hred : reduce (nearer f) getNotesInfo = inr (fold_left (nearer f) l first))
    by (rewrite Htab; reflexivity).
  destruct (search_first_least f l [] [] first) as (pre & post & Heq & Hpre & Hpost).
  - intros e [].
  - intros e [].
  - intros e [].
  - intros e He. apply distance_not_nan; [ | exact Hf ].
    apply table_finite. rewrite Htab. right. exact He.
  - cbn [app] in Heq.
    exists (fold_left (nearer f) l first), pre, post.
    rewrite Hred. cbn [bind ret catch].
    split; [ reflexivity | split; [ | split; [ exact Hpre | split; [ exact Hpost | ] ] ] ].
    + rewrite <- Heq. exact Htab.
    + split.
      * intros Hin. apply lower_octave_rejected. exact Hin.
      * intros Hin. apply upper_octaves_resolve. exact Hin.
Qed.

(** C4, the code at 28 Hz: the frequency is inside the range of the
    table, the search settles on the record of key 1, and the call returns
    null with the diagnostic of buildFromName on the name A0; 441 Hz gives
    the player of A4 and 1 Hz is out of range. *)
Theorem buildFromFrequency_first_octave_null (h : host) (ac : value) :
  in_table_range (of_Z 28) = true /\
  option_map Note.name (closest (of_Z 28)) = Some "A0"%string /\
  buildFromFrequency h (Some (of_Z 28)) ac
  = failure (ThrowString "Invalid octave: A0") buildFromName_usage /\
  (exists (out : console) (np : notePlayer),
      buildFromFrequency h (Some (of_Z 441)) ac = (out, Some np) /\
      name np = VStr "A4") /\
  buildFromFrequency h (Some (of_Z 1)) ac
  = failure (ThrowStringNumber "Invalid frequency (out of range 27.5-4186): "
                               (of_Z 1) "")
            buildFromFrequency_usage.
Proof.
  split; [ vm_compute; reflexivity | ].
  split; [ vm_compute; reflexivity | ].
  split; [ vm_compute; reflexivity | ].
  split; [ | vm_compute; reflexivity ].
  assert (Hd : buildFromFrequency h (Some (of_Z 441)) ac
               = buildFromKeyNb h (Some (of_Z 49)) ac) by (vm_compute; reflexivity).
  rewrite Hd.
  destruct (table_key 49) as (n & Hrec & _ & Hfind); [ lia | ].
  destruct (buildFromKeyNb_found h (of_Z 49) ac n (Hfind _ (key_eqb_refl 49 ltac:(lia))))
    as (out & np & Hb & _ & _ & Hname & _).
  exists out, np. split; [ exact Hb | ].
  assert (Hs : option_map Note.name (record_of_key 49) = Some "A4"%string)
    by (vm_compute; reflexivity).
  rewrite Hrec in Hs. injection Hs as Hs. rewrite Hname, Hs. reflexivity.
Qed.

(** ** The setters *)

Lemma set_same (this : notePlayer) :
  set_audioContext (audioContext this) this = this /\
  set_destinationNode (destinationNode this) this = this /\
  set_duration (duration this) this = this /\
  set_volume (volume this) this = this /\
  set_attack (attack this) this = this /\
  set_release (release this) this = this.
Proof. destruct this; cbn; repeat split. Qed.

(** [setDestinationNode()] ends in a TypeError, raised by the read of
    [this.audiocontext.destination]. *)
Lemma setDestinationNode_undefined_throws (h : host) (this : notePlayer) :
  setDestinationNode h VUndefined this = Abrupt TypeError this.
Proof. reflexivity. Qed.

(** C8: called with undefined, each of setDuration, setVolume, setAttack,
    setRelease, setAudioContext and setDestinationNode leaves every field
    of the instance as it was (the first five return normally and
    setDestinationNode raises a TypeError before it assigns); setVerbose
    returns an instance whose verbose field holds true for undefined and
    for true, and false for every other argument, and whose other fields
    are as before. *)
Theorem setters_undefined_and_setVerbose (h : host) (this : notePlayer) :
  (forall c : completion,
      In c [setDuration VUndefined this; setVolume VUndefined this;
            setAttack h VUndefined this; setRelease h VUndefined this;
            setAudioContext VUndefined this;
            setDestinationNode h VUndefined this] ->
      instance_after c = this) /\
  setDuration VUndefined this = Normal this /\
  setVolume VUndefined this = Normal this /\
  setAttack h VUndefined this = Normal this /\
  setRelease h VUndefined this = Normal this /\
  setAudioContext VUndefined this = Normal this /\
  setDestinationNode h VUndefined this = Abrupt TypeError this /\
  returns_assigning Verbose (VBool true) this (setVerbose VUndefined this) /\
  returns_assigning Verbose (VBool true) this (setVerbose (VBool true) this) /\
  (forall v : value,
      v <> VUndefined -> v <> VBool true ->
      returns_assigning Verbose (VBool false) this (setVerbose v this)).
Proof.
  destruct (set_same this) as (Hac & Hdn & Hd & Hv & Ha & Hr).
  assert (Hcalls :
            setDuration VUndefined this = Normal this /\
            setVolume VUndefined this = Normal this /\
            setAttack h VUndefined this = Normal this /\
            setRelease h VUndefined this = Normal this /\
            setAudioContext VUndefined this = Normal this /\
            setDestinationNode h VUndefined this = Abrupt TypeError this).
  { unfold setDuration, setVolume, setAttack, setRelease, setAudioContext.
    cbn [undefined_or_whole]. rewrite Hac, Hd, Hv, Ha, Hr. repeat split. }
  destruct Hcalls as (Cd & Cv & Ca & Cr & Cac & Cdn).
  split.
  - intros c Hc. cbn [In] in Hc.
    rewrite Cd, Cv, Ca, Cr, Cac, Cdn in Hc.
    repeat destruct Hc as [<- | Hc]; try reflexivity. destruct Hc.
  - repeat (split; [ assumption | ]).
    assert (Hset : forall b : bool,
               returns_assigning Verbose (VBool b) this
                 (Normal (set_verbose (VBool b) this))).
    { intros b. eexists. split; [ reflexivity | ]. split; [ reflexivity | ].
      intros g Hg. destruct g; try reflexivity. contradiction Hg. reflexivity. }
    split; [ exact (Hset true) | split; [ exact (Hset true) | ] ].
    intros v Hu Ht.
    destruct v as [ | | [ | ] | | | ]; try exact (Hset false); congruence.
Qed.

Lemma setters_undefined_and_setVerbose_witness :
  instance_after (setDestinationNode example_host VUndefined example_player)
  = example_player /\
  verbose example_player = VBool false /\
  verbose (instance_after (setVerbose VUndefined example_player)) = VBool true /\
  verbose (instance_after (setVerbose (VNum (of_Z 1))
                             (instance_after (setVerbose VUndefined example_player))))
  = VBool false.
Proof.
  destruct (setters_undefined_and_setVerbose example_host example_player)
    as (Hkept & _ & _ & _ & _ & _ & _ & Hon & _ & _).
  destruct (setters_undefined_and_setVerbose example_host
              (instance_after (setVerbose VUndefined example_player)))
    as (_ & _ & _ & _ & _ & _ & _ & _ & _ & Hoff).
  split; [ apply Hkept; cbn [In]; tauto | ].
  split; [ reflexivity | split ].
  - destruct Hon as (this' & -> & Hv & _). exact Hv.
  - destruct (Hoff (VNum (of_Z 1))) as (this' & -> & Hv & _);
      [ discriminate | discriminate | exact Hv ].
Defined.

(** What the assignments of [setAttack] and [setRelease] leave. *)
Lemma set_attack_assigned (v : value) (this : notePlayer) :
  returns_assigning Attack v this (Normal (set_attack v this)).
Proof.
  eexists. split; [ reflexivity | ]. split; [ reflexivity | ].
  intros g Hg. destruct g; try reflexivity. contradiction Hg. reflexivity.
Qed.

Lemma set_release_assigned (v : value) (this : notePlayer) :
  returns_assigning Release v this (Normal (set_release v this)).
Proof.
  eexists. split; [ reflexivity | ]. split; [ reflexivity | ].
  intros g Hg. destruct g; try reflexivity. contradiction Hg. reflexivity.
Qed.

(** C9: for a Number n, setAttack(n) and setRelease(n) leave the field as
    it is when n is whole, zero and negative whole numbers included; when
    n is fractional they return an instance that holds n in the field and
    is as before in every other field. *)
Theorem setAttack_setRelease_whole_fractional
        (h : host) (this : notePlayer) (n : number) :
  (whole n ->
   setAttack h (VNum n) this = Normal this /\
   setRelease h (VNum n) this = Normal this) /\
  (fractional n ->
   returns_assigning Attack (VNum n) this (setAttack h (VNum n) this) /\
   returns_assigning Release (VNum n) this (setRelease h (VNum n) this)).
Proof.
  destruct (set_same this) as (_ & _ & _ & _ & Ha & Hr).
  unfold setAttack, setRelease, undefined_or_whole; cbn [ToNumber].
  split.
  - intros [Hf Hz]. apply (rem_1_whole n Hf) in Hz. rewrite Hz, Ha, Hr. split; reflexivity.
  - intros Hfr. rewrite (rem_1_fractional n Hfr). split.
    + apply set_attack_assigned.
    + apply set_release_assigned.
Qed.

Lemma setAttack_setRelease_whole_fractional_witness :
  whole (of_Z (-3)) /\ fractional (decimal 3 1) /\
  setAttack example_host (VNum (of_Z (-3))) example_player = Normal example_player /\
  release example_player = VNum (decimal 1 1) /\
  release (instance_after (setRelease example_host (VNum (decimal 3 1)) example_player))
  = VNum (decimal 3 1).
Proof.
  assert (Hw : whole (of_Z (-3))).
  { split; [ reflexivity | exists (-3); reflexivity ]. }
  assert (Hf : fractional (decimal 3 1)).
  { split; [ reflexivity | ]. intros z.
    replace (to_Q (decimal 3 1)) with (5404319552844595 # 18014398509481984)%Q
      by (vm_compute; reflexivity).
    unfold Qeq; cbn [Qnum Qden inject_Z]. lia. }
  split; [ exact Hw | split; [ exact Hf | split; [ | split; [ reflexivity | ] ] ] ].
  - apply (setAttack_setRelease_whole_fractional example_host example_player (of_Z (-3))).
    exact Hw.
  - destruct (setAttack_setRelease_whole_fractional example_host example_player
                (decimal 3 1)) as [_ Hfrac].
    destruct (Hfrac Hf) as (_ & this' & -> & Hv & _). exact Hv.
Defined.

(** * Further properties *)

(** ** The truncation and the names of the table *)

Lemma dropRightWhile_rev_skipn {A : Type} (n : Z) (r : list A) :
  0 <= n ->
  dropRightWhile_rev (fun _ i => n <=? i) r (Z.of_nat (length r) - 1)
  = skipn (length r - Z.to_nat n) r.
Proof.
  intros Hn. induction r as [ | a rest IH].
  - reflexivity.
  - cbn [dropRightWhile_rev].
    replace (Z.of_nat (length (a :: rest)) - 1) with (Z.of_nat (length rest))
      by (cbn [length]; lia).
    destruct (Z.leb_spec n (Z.of_nat (length rest))) as [Hle | Hgt].
    + replace (Z.of_nat (length rest)) with (Z.of_nat (length rest) - 1 + 1) at 1 by lia.
      replace (Z.of_nat (length rest) - 1 + 1 - 1) with (Z.of_nat (length rest) - 1) by lia.
      rewrite IH.
      replace (length (a :: rest) - Z.to_nat n)%nat
        with (S (length rest - Z.to_nat n)) by (cbn [length]; lia).
      reflexivity.
    + replace (length (a :: rest) - Z.to_nat n)%nat with 0%nat by (cbn [length]; lia).
      reflexivity.
Qed.

(** X1: lodash's dropRightWhile with the predicate "index >= n" keeps the
    first n elements of any array, and the whole array when it is shorter
    than n. *)
Theorem dropRightWhile_index_firstn {A : Type} (n : Z) (l : list A) :
  0 <= n ->
  dropRightWhile (fun _ i => n <=? i) l = firstn (Z.to_nat n) l.
Proof.
  intros Hn. unfold dropRightWhile.
  rewrite <- (length_rev l) at 1. rewrite (dropRightWhile_rev_skipn n (rev l) Hn).
  rewrite skipn_rev, rev_involutive, !length_rev.
  destruct (Nat.le_gt_cases (Z.to_nat n) (length l)) as [Hle | Hgt].
  - f_equal. lia.
  - replace (length l - (length l - Z.to_nat n))%nat with (length l) by lia.
    rewrite firstn_all. symmetry. apply firstn_all2. lia.
Qed.

Lemma dropRightWhile_index_firstn_witness :
  dropRightWhile (fun _ i => 2 <=? i) [10; 20; 30] = [10; 20] /\
  dropRightWhile (fun _ i => 5 <=? i) [10; 20; 30] = [10; 20; 30].
Proof.
  split.
  - apply (dropRightWhile_index_firstn 2 [10; 20; 30]). lia.
  - apply (dropRightWhile_index_firstn 5 [10; 20; 30]). lia.
Defined.

Lemma distinct_NoDup (l : list string) : distinct l = true -> NoDup l.
Proof.
  induction l as [ | a l IH]; intros H; [ constructor | ].
  cbn [distinct] in H. apply andb_true_iff in H. destruct H as [Ha Hl].
  constructor; [ | exact (IH Hl) ].
  intros Hin. apply negb_true_iff in Ha.
  assert (Hex : existsb (String.eqb a) l = true).
  { apply existsb_exists. exists a. split; [ exact Hin | apply String.eqb_refl ]. }
  congruence.
Qed.

(** X2: the record of every key k of 1..88 is named by the pitch class at
    position (k - 1) mod 12 of A, A#, B, C, ..., G# followed by the octave
    (k - 1) / 12, so that the octave number changes at A and runs from 0
    to 7; and no two records of the table have the same name. *)
Theorem table_names (k : Z) :
  1 <= k <= 88 ->
  (exists n : Note.t,
      record_of_key k = Some n /\ Note.keynb n = of_Z k /\
      Note.name n = name_of_key k /\ 0 <= (k - 1) / 12 <= 7) /\
  NoDup (map Note.name getNotesInfo).
Proof.
  intros Hk. split.
  - destruct (table_key k Hk) as (n & Hrec & Hkey & _).
    assert (Hc : name_checked k = true).
    { apply (forallb_range name_checked 88); [ vm_compute; reflexivity | exact Hk ]. }
    unfold name_checked in Hc. rewrite Hrec in Hc. apply String.eqb_eq in Hc.
    exists n. repeat split; try assumption.
    + apply Z.div_pos; lia.
    + assert ((k - 1) / 12 < 8) by (apply Z.div_lt_upper_bound; lia). lia.
  - apply distinct_NoDup. vm_compute. reflexivity.
Qed.

Lemma table_names_witness :
  exists n : Note.t,
    record_of_key 40 = Some n /\ Note.keynb n = of_Z 40 /\
    Note.name n = "C3"%string /\ 0 <= (40 - 1) / 12 <= 7.
Proof.
  destruct (table_names 40) as (Hname & _); [ lia | ].
  exact Hname.
Defined.

(** ** Equal temperament *)

Lemma root_pow (m : nat) : ((twelfth_root_of_two ^ m) ^ 12 = 2 ^ m)%R.
Proof.
  rewrite <- pow_mult, Nat.mul_comm, pow_mult, root_pow12. reflexivity.
Qed.

Lemma Q2R_pow2 (m : Z) : 0 <= m -> Q2R (inject_Z (2 ^ m)) = (2 ^ Z.to_nat m)%R.
Proof.
  intros Hm. unfold Q2R. cbn [Qnum Qden inject_Z].
  rewrite pow_IZR, Z2Nat.id by exact Hm. lra.
Qed.

Lemma below_root_pow (q : Q) (m : Z) :
  0 <= m -> (pow12 q <= inject_Z (2 ^ m))%Q ->
  (Q2R q <= twelfth_root_of_two ^ Z.to_nat m)%R.
Proof.
  intros Hm H. apply Qle_Rle in H. rewrite Q2R_pow12, (Q2R_pow2 m Hm) in H.
  destruct (Rle_or_lt (Q2R q) (twelfth_root_of_two ^ Z.to_nat m)) as [Hle | Hlt];
    [ exact Hle | ].
  assert (Hp : (0 <= twelfth_root_of_two ^ Z.to_nat m)%R)
    by (apply pow_le, Rlt_le, root_pos).
  assert (Hc : ((twelfth_root_of_two ^ Z.to_nat m) ^ 12 < Q2R q ^ 12)%R)
    by (apply pow12_lt; lra).
  rewrite root_pow in Hc. lra.
Qed.

Lemma above_root_pow (q : Q) (m : Z) :
  0 <= m -> (0 <= Q2R q)%R -> (inject_Z (2 ^ m) <= pow12 q)%Q ->
  (twelfth_root_of_two ^ Z.to_nat m <= Q2R q)%R.
Proof.
  intros Hm Hq H. apply Qle_Rle in H. rewrite Q2R_pow12, (Q2R_pow2 m Hm) in H.
  destruct (Rle_or_lt (twelfth_root_of_two ^ Z.to_nat m) (Q2R q)) as [Hle | Hlt];
    [ exact Hle | ].
  assert (Hc : (Q2R q ^ 12 < (twelfth_root_of_two ^ Z.to_nat m) ^ 12)%R)
    by (apply pow12_lt; lra).
  rewrite root_pow in Hc. lra.
Qed.

Lemma Q2R_tuning_tolerance : Q2R tuning_tolerance = (/ 100000000000000)%R.
Proof. unfold Q2R, tuning_tolerance. cbn. lra. Qed.

Lemma tuned_sound (k : Z) (f : number) :
  1 <= k -> tuned k f = true ->
  (Rabs (to_R f - pitch k) <= / 100000000000000 * pitch k)%R.
Proof.
  intros Hk. unfold tuned. intros H.
  apply andb_true_iff in H. destruct H as [_ H].
  apply andb_true_iff in H. destruct H as [H Hhi].
  apply andb_true_iff in H. destruct H as [H0 Hlo].
  apply Qle_bool_iff in H0. apply Qle_bool_iff in Hlo. apply Qle_bool_iff in Hhi.
  apply Qle_Rle in H0. replace (Q2R 0) with 0%R in H0 by (unfold Q2R; cbn; lra).
  assert (Ep : Q2R (1 + tuning_tolerance) = (1 + / 100000000000000)%R).
  { rewrite Q2R_plus, Q2R_tuning_tolerance. unfold Q2R. cbn. lra. }
  assert (Em : Q2R (1 - tuning_tolerance) = (1 - / 100000000000000)%R).
  { rewrite Q2R_minus, Q2R_tuning_tolerance. unfold Q2R. cbn. lra. }
  assert (Er : Q2R (to_Q f / (275 # 10)) = (to_R f / (275 / 10))%R).
  { rewrite Q2R_div; [ | intros Hz; discriminate Hz ].
    unfold to_R. reflexivity. }
  set (r := (to_Q f / (275 # 10))%Q) in *.
  assert (Dp : Q2R (r / (1 + tuning_tolerance)) = (Q2R r / (1 + / 100000000000000))%R).
  { rewrite Q2R_div, Ep; [ reflexivity | ]. intros Hz. discriminate Hz. }
  assert (Dm : Q2R (r / (1 - tuning_tolerance)) = (Q2R r / (1 - / 100000000000000))%R).
  { rewrite Q2R_div, Em; [ reflexivity | ]. intros Hz. discriminate Hz. }
  apply (below_root_pow _ (k - 1)) in Hlo; [ | lia ]. rewrite Dp in Hlo.
  apply (above_root_pow _ (k - 1)) in Hhi; [ | lia | ].
  2:{ rewrite Dm. apply Rmult_le_pos; [ exact H0 | ].
      apply Rlt_le, Rinv_0_lt_compat. lra. }
  rewrite Dm in Hhi. rewrite Er in Hlo, Hhi.
  unfold pitch.
  set (s := (twelfth_root_of_two ^ Z.to_nat (k - 1))%R) in *.
  assert (Hs : (0 < s)%R) by (apply pow_lt, root_pos).
  set (x := to_R f) in *.
  assert (Hup : (x / (275 / 10) <= s * (1 + / 100000000000000))%R).
  { apply (Rmult_le_compat_r (1 + / 100000000000000)) in Hlo; [ | lra ].
    unfold Rdiv in Hlo at 1. rewrite Rmult_assoc, Rinv_l in Hlo; lra. }
  assert (Hdown : (s * (1 - / 100000000000000) <= x / (275 / 10))%R).
  { apply (Rmult_le_compat_r (1 - / 100000000000000)) in Hhi; [ | lra ].
    unfold Rdiv in Hhi at 1. rewrite Rmult_assoc, Rinv_l in Hhi; lra. }
  apply Rabs_le. split.
  - apply (Rmult_le_compat_l (275 / 10)) in Hdown; [ | lra ].
    replace (275 / 10 * (x / (275 / 10)))%R with x in Hdown by (field; lra).
    lra.
  - apply (Rmult_le_compat_l (275 / 10)) in Hup; [ | lra ].
    replace (275 / 10 * (x / (275 / 10)))%R with x in Hup by (field; lra).
    lra.
Qed.

(** X3: the frequency the table gives key k, for every k of 1..88, is the
    equal-temperament frequency 27.5 * (2^(1/12))^(k - 1) within the
    relative tolerance 1e-14: the 87 rounded multiplications do not drift
    further. *)
Theorem table_equal_temperament (k : Z) (n : Note.t) :
  1 <= k <= 88 ->
  record_of_key k = Some n ->
  (Rabs (to_R (Note.freq n) - pitch k) <= / 100000000000000 * pitch k)%R.
Proof.
  intros Hk Hn.
  assert (Hc : tuned_checked k = true).
  { apply (forallb_range tuned_checked 88); [ vm_compute; reflexivity | exact Hk ]. }
  unfold tuned_checked in Hc. rewrite Hn in Hc.
  apply tuned_sound; [ lia | exact Hc ].
Qed.

Lemma table_equal_temperament_witness :
  exists n : Note.t,
    record_of_key 49 = Some n /\
    (Rabs (to_R (Note.freq n) - pitch 49) <= / 100000000000000 * pitch 49)%R.
Proof.
  destruct (record_of_key 49) as [n | ] eqn:Hn;
    [ | exfalso; vm_compute in Hn; discriminate Hn ].
  exists n. split; [ reflexivity | ].
  apply (table_equal_temperament 49 n); [ lia | exact Hn ].
Defined.

(** ** Names given to buildFromName *)

Lemma slice_last_app (a b : string) :
  b <> EmptyString -> slice_last (a ++ b) = slice_last b.
Proof.
  intros Hb. induction a as [ | c a IH]; [ reflexivity | ].
  cbn [append slice_last]. rewrite <- IH.
  destruct (a ++ b)%string eqn:E; [ | reflexivity ].
  destruct a; [ cbn in E; congruence | discriminate E ].
Qed.

Lemma digit_string (d : Z) :
  1 <= d <= 8 ->
  string_of_Z d <> EmptyString /\ parseInt (slice_last (string_of_Z d)) = Some d.
Proof.
  intros Hd.
  assert (Hc : d = 1 \/ d = 2 \/ d = 3 \/ d = 4 \/ d = 5 \/ d = 6 \/ d = 7 \/ d = 8)
    by lia.
  repeat destruct Hc as [-> | Hc]; try subst d; split; try discriminate; reflexivity.
Qed.

(** X4: once a name starts with a flat (Cb, Db, Eb, Fb, Gb, Ab, Bb) and
    ends in an octave digit of 1..8, buildFromName ignores whatever stands
    between the two: it returns what it returns on the corresponding sharp
    or natural followed by that digit. *)
Theorem buildFromName_flat_ignores_middle (flat sharp middle : string) (d : Z) :
  In (flat, sharp) DICT_TRANSLATIONS ->
  1 <= d <= 8 ->
  forall (h : host) (ac : value),
    buildFromName h (Some (flat ++ middle ++ string_of_Z d)%string) ac
    = buildFromName h (Some (sharp ++ string_of_Z d)%string) ac.
Proof.
  intros Hin Hd h ac.
  destruct (digit_string d Hd) as [Hne Hparse].
  destruct (flat_and_sharp flat sharp d Hin Hd) as (_ & _ & Hps & Hts).
  assert (Hlast : parseInt (slice_last (flat ++ middle ++ string_of_Z d)) = Some d).
  { rewrite slice_last_app.
    - rewrite slice_last_app; assumption.
    - destruct middle; [ exact Hne | discriminate ]. }
  assert (Htr : translate (flat ++ middle ++ string_of_Z d)
                = (sharp ++ string_of_Z d)%string).
  { unfold translate. rewrite Hlast.
    cbn in Hin.
    repeat match goal with
           | H : _ \/ _ |- _ => destruct H
           | H : (_, _) = (_, _) |- _ => injection H as <- <-
           | H : False |- _ => destruct H
           end; reflexivity. }
  rewrite (buildFromName_checked h _ ac d Hlast Hd).
  rewrite (buildFromName_checked h _ ac d Hps Hd).
  rewrite Htr, Hts. reflexivity.
Qed.

Lemma buildFromName_flat_ignores_middle_witness :
  buildFromName example_host (Some "Bb-flat, octave 3"%string) VUndefined
  = buildFromName example_host (Some "A#3"%string) VUndefined.
Proof.
  apply (buildFromName_flat_ignores_middle "Bb" "A#" "-flat, octave " 3).
  - cbn. tauto.
  - lia.
Defined.

Lemma table_ends_in_digit (n : Note.t) :
  In n getNotesInfo -> parseInt (slice_last (Note.name n)) <> None.
Proof.
  intros Hin.
  assert (H : forallb ends_in_digit getNotesInfo = true) by (vm_compute; reflexivity).
  rewrite forallb_forall in H. specialize (H n Hin). unfold ends_in_digit in H.
  destruct (parseInt _); [ discriminate | discriminate H ].
Qed.

(** X5: a name whose last character is no decimal digit passes the octave
    check (the parsed octave is NaN) and is then not found: buildFromName
    logs the invalid note name with the usage hint and returns null.  The
    empty name is one of them. *)
Theorem buildFromName_no_octave (h : host) (noteName : string) (ac : value) :
  parseInt (slice_last noteName) = None ->
  buildFromName h (Some noteName) ac
  = failure (ThrowString ("Invalid note name: " ++ translate noteName ++
                          ", did you forget to mention the octave nb ?"))
            buildFromName_usage.
Proof.
  intros Hp. unfold buildFromName. rewrite Hp. cbn [parsed_ltb parsed_gtb orb].
  destruct (find _ getNotesInfo) as [n | ] eqn:Hfind; [ exfalso | reflexivity ].
  apply find_some in Hfind. destruct Hfind as [Hin Hname].
  apply String.eqb_eq in Hname. apply (table_ends_in_digit n Hin).
  rewrite Hname. unfold translate. rewrite Hp.
  destruct (lookup _ DICT_TRANSLATIONS) as [t | ]; [ | exact Hp ].
  rewrite slice_last_app; [ reflexivity | discriminate ].
Qed.

Lemma buildFromName_no_octave_witness :
  buildFromName example_host (Some ""%string) VUndefined
  = failure (ThrowString "Invalid note name: , did you forget to mention the octave nb ?")
            buildFromName_usage /\
  buildFromName example_host (Some "Bb"%string) VUndefined
  = failure (ThrowString "Invalid note name: A#NaN, did you forget to mention the octave nb ?")
            buildFromName_usage.
Proof.
  split.
  - apply (buildFromName_no_octave example_host "" VUndefined). reflexivity.
  - apply (buildFromName_no_octave example_host "Bb" VUndefined). reflexivity.
Defined.

Lemma record_in_upper_octaves (k : Z) (n : Note.t) :
  13 <= k <= 88 -> record_of_key k = Some n -> In n (skipn 12 getNotesInfo).
Proof.
  intros Hk Hrec. unfold record_of_key in Hrec.
  apply (nth_error_In _ (Z.to_nat (k - 1) - 12)).
  rewrite nth_error_skipn. rewrite <- Hrec. f_equal. lia.
Qed.

(** X6: for every key k of 13..88, the name of the player that
    buildFromKeyNb(k) returns leads buildFromName back to the same note:
    a player with the same key number, frequency, name and octave. *)
Theorem key_name_round_trip (k : Z) (h h' : host) (ac ac' : value)
        (out : console) (np : notePlayer) (s : string) :
  13 <= k <= 88 ->
  buildFromKeyNb h (Some (of_Z k)) ac = (out, Some np) ->
  name np = VStr s ->
  exists (out' : console) (np' : notePlayer),
    buildFromName h' (Some s) ac' = (out', Some np') /\
    pianoKeyNb np' = pianoKeyNb np /\ frequency np' = frequency np /\
    name np' = name np /\ octave np' = octave np.
Proof.
  intros Hk Hbuilt Hname.
  destruct (table_key k) as (n & Hrec & Hkey & Hfind); [ lia | ].
  destruct (buildFromKeyNb_found h (of_Z k) ac n (Hfind _ (key_eqb_refl k ltac:(lia))))
    as (out0 & np0 & Hb0 & Hk0 & Hf0 & Hn0 & Ho0).
  rewrite Hbuilt in Hb0. injection Hb0 as _ <-.
  rewrite Hn0 in Hname. injection Hname as <-.
  destruct (upper_octaves_resolve h' ac' n (record_in_upper_octaves k n Hk Hrec))
    as (out' & np' & Hb' & Hk' & Hf' & Hn' & Ho').
  exists out', np'. repeat split; congruence.
Qed.

Lemma key_name_round_trip_witness :
  exists (out' : console) (np' : notePlayer),
    buildFromName example_host (Some "A4"%string) VNull = (out', Some np') /\
    pianoKeyNb np' = pianoKeyNb example_A4 /\ frequency np' = frequency example_A4 /\
    name np' = name example_A4 /\ octave np' = octave example_A4.
Proof.
  apply (key_name_round_trip 49 example_host example_host VUndefined VNull
                             [] example_A4 "A4").
  - lia.
  - vm_compute. reflexivity.
  - vm_compute. reflexivity.
Defined.

(** ** What the name and the frequency paths can return *)

Lemma table_octaves (n : Note.t) :
  In n getNotesInfo ->
  slice_last (Note.name n) <> "0"%string ->
  exists k d : Z,
    13 <= k <= 88 /\ Note.keynb n = of_Z k /\
    1 <= d <= 7 /\ slice_last (Note.name n) = string_of_Z d.
Proof.
  intros Hin Hlast.
  assert (H : forallb octave_checked getNotesInfo = true) by (vm_compute; reflexivity).
  rewrite forallb_forall in H. specialize (H n Hin). unfold octave_checked in H.
  apply orb_true_iff in H. destruct H as [H | H].
  - unfold octave_zero in H. apply String.eqb_eq in H. contradiction.
  - apply andb_true_iff in H. destruct H as [Hk Hd].
    apply existsb_exists in Hk. destruct Hk as (k & Hkin & Hk).
    apply existsb_exists in Hd. destruct Hd as (d & Hdin & Hd).
    apply in_map_iff in Hkin. destruct Hkin as (k' & <- & Hk').
    apply in_map_iff in Hdin. destruct Hdin as (d' & <- & Hd').
    apply in_seq in Hk'. apply in_seq in Hd'.
    apply same_number_eq in Hk. apply String.eqb_eq in Hd.
    exists (Z.of_nat k'), (Z.of_nat d'). repeat split; try assumption; lia.
Qed.

(** X7: a player returned by buildFromName or by buildFromFrequency is
    never one of octave 0 or of octave 8: its key number is one of 13..88
    and its octave field one of the digits 1..7. *)
Theorem named_players_upper_octaves (h : host) (ac : value)
        (out : console) (np : notePlayer) :
  (forall noteName : option string,
      buildFromName h noteName ac = (out, Some np) -> upper_player np) /\
  (forall noteFreq : option number,
      buildFromFrequency h noteFreq ac = (out, Some np) -> upper_player np).
Proof.
  assert (Hname : forall noteName : option string,
             buildFromName h noteName ac = (out, Some np) -> upper_player np).
  { intros noteName Hb.
    destruct (buildFromName_some h noteName ac out np Hb)
      as (n & Hin & (Hk & _ & _ & Ho) & Hlast).
    destruct (table_octaves n Hin Hlast) as (k & d & Hkr & Hkey & Hdr & Hd).
    exists k, d. repeat split; try lia; congruence. }
  split; [ exact Hname | ].
  intros noteFreq Hb.
  destruct (buildFromFrequency_some h noteFreq ac out np Hb) as (s & Hs).
  exact (Hname (Some s) Hs).
Qed.

Lemma named_players_upper_octaves_witness : upper_player example_A4.
Proof.
  destruct (named_players_upper_octaves example_host VUndefined [] example_A4)
    as (Hname & _).
  apply (Hname (Some "A4"%string)). vm_compute. reflexivity.
Defined.

(** ** Frequencies given to buildFromFrequency *)

Lemma table_ends :
  exists first last : Note.t,
    nth_error getNotesInfo 0 = Some first /\ nth_error getNotesInfo 87 = Some last.
Proof.
  pose proof table_length as Hlen.
  destruct (nth_error getNotesInfo 0) as [first | ] eqn:Hfirst.
  - destruct (nth_error getNotesInfo 87) as [last | ] eqn:Hlast.
    + exists first, last. split; reflexivity.
    + apply nth_error_None in Hlast. lia.
  - apply nth_error_None in Hfirst. lia.
Qed.

Lemma buildFromFrequency_delegates (h : host) (f : number) (ac : value) (c : Note.t) :
  in_table_range f = true ->
  closest f = Some c ->
  buildFromFrequency h (Some f) ac = buildFromName h (Some (Note.name c)) ac.
Proof.
  unfold in_table_range, closest, buildFromFrequency, element.
  rewrite table_length. change (88 - 1)%nat with 87%nat.
  destruct table_ends as (first & last & Hfirst & Hlast).
  rewrite Hfirst, Hlast. cbn [bind ret].
  destruct (ltb f (Note.freq first) || gtb f (Note.freq last)).
  - intros Hr. discriminate Hr.
  - intros _.
    destruct (reduce (nearer f) getNotesInfo) as [e | c'].
    + intros Hc. discriminate Hc.
    + intros Hc. injection Hc as ->. reflexivity.
Qed.

(** X9: the frequency of the record of every key k of 13..88, given to
    buildFromFrequency exactly as the table holds it, resolves to that
    record: the player returned is built from it. *)
Theorem frequency_round_trip (k : Z) (n : Note.t) :
  13 <= k <= 88 ->
  record_of_key k = Some n ->
  forall (h : host) (ac : value),
  exists (out : console) (np : notePlayer),
    buildFromFrequency h (Some (Note.freq n)) ac = (out, Some np) /\
    built_from n np.
Proof.
  intros Hk Hrec h ac.
  assert (H : forallb resolves_to_itself getNotesInfo = true)
    by (vm_compute; reflexivity).
  rewrite forallb_forall in H.
  assert (Hin : In n getNotesInfo)
    by (apply (record_of_key_in k); exact Hrec).
  specialize (H n Hin). unfold resolves_to_itself in H.
  apply andb_true_iff in H. destruct H as [Hrange Hclosest].
  destruct (closest (Note.freq n)) as [c | ] eqn:Hc; [ | discriminate ].
  apply same_record_eq in Hclosest. subst c.
  rewrite (buildFromFrequency_delegates h _ ac n Hrange Hc).
  apply upper_octaves_resolve. exact (record_in_upper_octaves k n Hk Hrec).
Qed.

Lemma frequency_round_trip_witness :
  exists (n : Note.t) (out : console) (np : notePlayer),
    record_of_key 88 = Some n /\
    buildFromFrequency example_host (Some (Note.freq n)) VUndefined = (out, Some np) /\
    built_from n np.
Proof.
  destruct (record_of_key 88) as [n | ] eqn:Hn;
    [ | exfalso; vm_compute in Hn; discriminate Hn ].
  destruct (frequency_round_trip 88 n) with (h := example_host) (ac := VUndefined)
    as (out & np & Hb & Hnp); [ lia | exact Hn | ].
  exists n, out, np. repeat split; try assumption; apply Hnp.
Defined.

(** X10: buildFromFrequency returns null on the Numbers that are not
    finite, in two ways: an infinity fails the range check, while NaN,
    which is neither below the lowest nor above the highest frequency,
    passes it, is nearer to no record than to the first, and fails in
    buildFromName on the name A0. *)
Theorem buildFromFrequency_not_finite (h : host) (ac : value) :
  buildFromFrequency h (Some NaN) ac
  = failure (ThrowString "Invalid octave: A0") buildFromName_usage /\
  (forall s : bool,
      buildFromFrequency h (Some (S754_infinity s)) ac
      = failure (ThrowStringNumber "Invalid frequency (out of range 27.5-4186): "
                                   (S754_infinity s) "")
                buildFromFrequency_usage).
Proof.
  split; [ vm_compute; reflexivity | ].
  intros [ | ]; vm_compute; reflexivity.
Qed.

Lemma buildFromFrequency_behaviour_witness :
  buildFromFrequency example_host (Some (of_Z 1)) VUndefined
  = failure (ThrowStringNumber "Invalid frequency (out of range 27.5-4186): "
                               (of_Z 1) "")
            buildFromFrequency_usage /\
  exists (c : Note.t) (pre post : list Note.t),
    closest (of_Z 441) = Some c /\
    getNotesInfo = pre ++ c :: post /\
    (forall e, In e pre -> ltb (distance (of_Z 441) c) (distance (of_Z 441) e) = true) /\
    (forall e, In e post -> ltb (distance (of_Z 441) e) (distance (of_Z 441) c) = false) /\
    (In c (firstn 12 getNotesInfo) ->
     buildFromFrequency example_host (Some (of_Z 441)) VUndefined
     = failure (ThrowString ("Invalid octave: " ++ Note.name c)) buildFromName_usage) /\
    (In c (skipn 12 getNotesInfo) ->
     exists (out : console) (np : notePlayer),
       buildFromFrequency example_host (Some (of_Z 441)) VUndefined = (out, Some np) /\
       built_from c np).
Proof.
  destruct (buildFromFrequency_behaviour example_host (of_Z 1) VUndefined) as [Hout _].
  destruct (buildFromFrequency_behaviour example_host (of_Z 441) VUndefined) as [_ Hin].
  split.
  - apply Hout. vm_compute. reflexivity.
  - apply Hin; [ vm_compute; reflexivity | discriminate ].
Defined.

(** ** The players the factories return *)

(** A player comes out of a factory through the constructor, applied to a
    record of the table and to the audio context argument. *)
Lemma factory_some_constructed (h : host) (ac : value)
      (out : console) (np : notePlayer) :
  (forall noteName, buildFromName h noteName ac = (out, Some np) ->
                    exists n, In n getNotesInfo /\ new_notePlayer h n ac = (out, np)) /\
  (forall noteKeyNb, buildFromKeyNb h noteKeyNb ac = (out, Some np) ->
                     exists n, In n getNotesInfo /\ new_notePlayer h n ac = (out, np)) /\
  (forall noteFreq, buildFromFrequency h noteFreq ac = (out, Some np) ->
                    exists n, In n getNotesInfo /\ new_notePlayer h n ac = (out, np)).
Proof.
  assert (Hname : forall noteName, buildFromName h noteName ac = (out, Some np) ->
                    exists n, In n getNotesInfo /\ new_notePlayer h n ac = (out, np)).
  { intros noteName. unfold buildFromName.
    destruct noteName as [s | ]; [ | discriminate ].
    destruct (parsed_ltb _ 1 || parsed_gtb _ 8); [ discriminate | ].
    destruct (find _ getNotesInfo) as [n | ] eqn:Hfind; [ | discriminate ].
    apply find_some in Hfind. destruct Hfind as [Hin _].
    unfold catch, ret, constructed.
    destruct (new_notePlayer h n ac) as [out' np'] eqn:Hnew. cbn [fst snd].
    intros H. injection H as <- <-. exists n. split; [ exact Hin | exact Hnew ]. }
  split; [ exact Hname | split ].
  - intros noteKeyNb. unfold buildFromKeyNb.
    destruct noteKeyNb as [k | ]; [ | discriminate ].
    destruct (find _ getNotesInfo) as [n | ] eqn:Hfind; [ | discriminate ].
    apply find_some in Hfind. destruct Hfind as [Hin _].
    unfold catch, ret, constructed.
    destruct (new_notePlayer h n ac) as [out' np'] eqn:Hnew. cbn [fst snd].
    intros H. injection H as <- <-. exists n. split; [ exact Hin | exact Hnew ].
  - intros noteFreq Hb.
    destruct (buildFromFrequency_some h noteFreq ac out np Hb) as (s & Hs).
    exact (Hname (Some s) Hs).
Qed.

Lemma new_notePlayer_defaults (h : host) (n : Note.t) (ac : value) :
  has_defaults h (snd (new_notePlayer h n ac)).
Proof.
  unfold new_notePlayer, has_defaults.
  assert (Hsel : forall (r : thrown + value) (this : notePlayer),
             has_defaults h this ->
             has_defaults h
               (snd match r with
                    | inl err => ([console_error "" err], this)
                    | inr a =>
                        match get_destination h a with
                        | inl err => ([console_error "" err], set_audioContext a this)
                        | inr dn =>
                            ([], set_destinationNode dn (set_audioContext a this))
                        end
                    end)).
  { intros [err | a] this Hd; [ exact Hd | ].
    destruct (get_destination h a); exact Hd. }
  apply Hsel. repeat split.
Qed.

(** X11: every player that buildFromName, buildFromKeyNb or
    buildFromFrequency returns carries the defaults of the constructor:
    the duration drawn at random, volume 1, verbose off, attack 0.3 and
    release 0.1; and when the caller passed an audio context object, the
    call logs nothing, the player holds that object and its destination
    node is the destination of that object. *)
Theorem factory_players_wired (h : host) (ac : value)
        (out : console) (np : notePlayer) :
  (exists noteName, buildFromName h noteName ac = (out, Some np)) \/
  (exists noteKeyNb, buildFromKeyNb h noteKeyNb ac = (out, Some np)) \/
  (exists noteFreq, buildFromFrequency h noteFreq ac = (out, Some np)) ->
  has_defaults h np /\
  (forall o : N,
      ac = VObj o ->
      out = [] /\ audioContext np = VObj o /\ destinationNode np = destination h o).
Proof.
  intros Hfrom.
  assert (Hn : exists n, In n getNotesInfo /\ new_notePlayer h n ac = (out, np)).
  { destruct (factory_some_constructed h ac out np) as (Hname & Hkey & Hfreq).
    destruct Hfrom as [[x Hx] | [[x Hx] | [x Hx]]];
      [ exact (Hname x Hx) | exact (Hkey x Hx) | exact (Hfreq x Hx) ]. }
  destruct Hn as (n & _ & Hnew). split.
  - pose proof (new_notePlayer_defaults h n ac) as Hd. rewrite Hnew in Hd. exact Hd.
  - intros o ->. unfold new_notePlayer in Hnew. cbn [get_destination] in Hnew.
    injection Hnew as <- <-. repeat split.
Qed.

Lemma factory_players_wired_witness :
  has_defaults example_host example_A4.
Proof.
  apply (factory_players_wired example_host VUndefined [] example_A4).
  right. left. exists (Some (of_Z 49)). vm_compute. reflexivity.
Defined.

(** X12: a failure inside the constructor does not turn the result of a
    factory into null.  With null for the audio context the player is
    returned without a destination node, after the TypeError was logged;
    with no audio context argument on a host whose AudioContext
    constructor throws, it is returned with neither context nor
    destination node, after that error was logged.  Neither call logs the
    usage hint. *)
Theorem constructor_failure_keeps_player (h : host) (ac : value)
        (out : console) (np : notePlayer) :
  (exists noteName, buildFromName h noteName ac = (out, Some np)) \/
  (exists noteKeyNb, buildFromKeyNb h noteKeyNb ac = (out, Some np)) \/
  (exists noteFreq, buildFromFrequency h noteFreq ac = (out, Some np)) ->
  (ac = VNull ->
   out = [console_error "" TypeError] /\
   audioContext np = VNull /\ destinationNode np = VUndefined) /\
  (forall e : thrown,
      ac = VUndefined -> new_AudioContext h = inl e ->
      out = [console_error "" e] /\
      audioContext np = VUndefined /\ destinationNode np = VUndefined).
Proof.
  intros Hfrom.
  assert (Hn : exists n, In n getNotesInfo /\ new_notePlayer h n ac = (out, np)).
  { destruct (factory_some_constructed h ac out np) as (Hname & Hkey & Hfreq).
    destruct Hfrom as [[x Hx] | [[x Hx] | [x Hx]]];
      [ exact (Hname x Hx) | exact (Hkey x Hx) | exact (Hfreq x Hx) ]. }
  destruct Hn as (n & _ & Hnew). split.
  - intros ->. unfold new_notePlayer in Hnew. cbn [get_destination] in Hnew.
    injection Hnew as <- <-. repeat split.
  - intros e -> He. unfold new_notePlayer in Hnew. rewrite He in Hnew.
    injection Hnew as <- <-. repeat split.
Qed.

Lemma constructor_failure_keeps_player_witness :
  exists np : notePlayer,
    buildFromKeyNb example_host (Some (of_Z 49)) VNull
    = ([console_error "" TypeError], Some np) /\
    audioContext np = VNull /\ destinationNode np = VUndefined.
Proof.
  destruct (buildFromKeyNb example_host (Some (of_Z 49)) VNull) as [out [np | ]] eqn:Hb;
    [ | exfalso; vm_compute in Hb; discriminate Hb ].
  destruct (constructor_failure_keeps_player example_host VNull out np) as [Hnull _].
  - right. left. exists (Some (of_Z 49)). exact Hb.
  - destruct (Hnull eq_refl) as (-> & Hac & Hdn).
    exists np. repeat split; assumption.
Defined.

(** ** Sequences of setter calls *)

Lemma call_setter_keeps (h : host) (c : setter_call) (this : notePlayer) :
  let this' := instance_after (call_setter h c this) in
  pianoKeyNb this' = pianoKeyNb this /\ frequency this' = frequency this /\
  octave this' = octave this /\ name this' = name this /\
  (is_boolean (verbose this) -> is_boolean (verbose this')).
Proof.
  destruct c as [ac | dn | d | v | v | n | n]; cbn [call_setter].
  - unfold setAudioContext. cbn. tauto.
  - unfold setDestinationNode. destruct dn; cbn; tauto.
  - unfold setDuration. cbn. tauto.
  - unfold setVolume. cbn. tauto.
  - unfold setVerbose. cbn. repeat split.
    intros _. destruct v as [ | | [ | ] | | | ]; eexists; reflexivity.
  - unfold setAttack. destruct (undefined_or_whole h n); cbn; tauto.
  - unfold setRelease. destruct (undefined_or_whole h n); cbn; tauto.
Qed.

(** X13: no sequence of setter calls, with any arguments and whether or
    not one of them throws, changes the key number, frequency, octave or
    name of a player: a player built from a record stays built from it;
    and the verbose field, a boolean after construction, stays a
    boolean. *)
Theorem setters_keep_identity (h : host) (cs : list setter_call)
        (this : notePlayer) (n : Note.t) :
  built_from n this ->
  is_boolean (verbose this) ->
  built_from n (instance_after (call_setters h cs this)) /\
  is_boolean (verbose (instance_after (call_setters h cs this))).
Proof.
  revert this. induction cs as [ | c cs IH]; intros this Hb Hv.
  - split; assumption.
  - cbn [call_setters].
    pose proof (call_setter_keeps h c this) as (Hk & Hf & Ho & Hn & Hbool).
    assert (Hb' : built_from n (instance_after (call_setter h c this))).
    { destruct Hb as (Bk & Bf & Bn & Bo). repeat split; congruence. }
    destruct (call_setter h c this) as [this' | e this']; cbn [instance_after] in *.
    + apply IH; [ exact Hb' | exact (Hbool Hv) ].
    + split; [ exact Hb' | exact (Hbool Hv) ].
Qed.

Lemma setters_keep_identity_witness :
  built_from (Note.mk (of_Z 49) (of_Z 440) "A4")
    (instance_after
       (call_setters example_host
          [CallSetVolume (VStr "loud"); CallSetVerbose VNull;
           CallSetDestinationNode VUndefined; CallSetDuration (VNum (of_Z 2))]
          example_player)).
Proof.
  apply (setters_keep_identity example_host _ example_player
                               (Note.mk (of_Z 49) (of_Z 440) "A4")).
  - vm_compute. repeat split.
  - exists false. reflexivity.
Defined.

(** X14: the guard of setAttack and setRelease lets NaN and the infinities
    through: for a Number that is not finite the call returns an instance
    that holds it in the field and is as before in every other field; and
    it holds back null, true and false, which count as the whole numbers
    0 and 1: the instance is left as it is. *)
Theorem setAttack_setRelease_other_arguments (h : host) (this : notePlayer) :
  (forall x : number,
      is_finite x = false ->
      returns_assigning Attack (VNum x) this (setAttack h (VNum x) this) /\
      returns_assigning Release (VNum x) this (setRelease h (VNum x) this)) /\
  (forall v : value,
      v = VNull \/ (exists b : bool, v = VBool b) ->
      setAttack h v this = Normal this /\ setRelease h v this = Normal this).
Proof.
  destruct (set_same this) as (_ & _ & _ & _ & Ha & Hr).
  split.
  - intros x Hx. unfold setAttack, setRelease, undefined_or_whole. cbn [ToNumber].
    destruct x as [s | s | | s m e]; try discriminate Hx;
      (split; [ apply set_attack_assigned | apply set_release_assigned ]).
  - assert (H0 : eqb (rem_1 (of_Z 0)) (of_Z 0) = true) by (vm_compute; reflexivity).
    assert (H1 : eqb (rem_1 (of_Z 1)) (of_Z 0) = true) by (vm_compute; reflexivity).
    intros v [-> | [[ | ] ->]]; unfold setAttack, setRelease, undefined_or_whole;
      cbn [ToNumber]; rewrite ?H0, ?H1; cbv beta iota;
      rewrite Ha, Hr; split; reflexivity.
Qed.

Lemma setAttack_setRelease_other_arguments_witness :
  attack example_player = VNum (decimal 3 1) /\
  attack (instance_after (setAttack example_host (VNum NaN) example_player)) = VNum NaN /\
  setRelease example_host VNull example_player = Normal example_player.
Proof.
  destruct (setAttack_setRelease_other_arguments example_host example_player)
    as [Hnf Hnull].
  split; [ reflexivity | split ].
  - destruct (Hnf NaN) as ((this' & -> & Hv & _) & _); [ reflexivity | exact Hv ].
  - apply (Hnull VNull). left. reflexivity.
Defined.

(** X15: setAudioContext leaves the instance as it is for null as for
    undefined, stores any other argument, and in no case touches the
    destination node, which keeps pointing into the previous context;
    setDestinationNode() cannot bring it back, since with no argument it
    throws whatever the audio context is. *)
Theorem setAudioContext_keeps_destination (h : host) (ac : value) (this : notePlayer) :
  setAudioContext VNull this = Normal this /\
  destinationNode (instance_after (setAudioContext ac this)) = destinationNode this /\
  (ac <> VUndefined -> ac <> VNull ->
   audioContext (instance_after (setAudioContext ac this)) = ac) /\
  setDestinationNode h VUndefined (instance_after (setAudioContext ac this))
  = Abrupt TypeError (instance_after (setAudioContext ac this)).
Proof.
  destruct (set_same this) as (Hac & _).
  unfold setAudioContext. cbn [instance_after]. rewrite Hac.
  split; [ reflexivity | split; [ | split ] ].
  - destruct ac; reflexivity.
  - intros Hu Hn. destruct ac; try reflexivity; congruence.
  - reflexivity.
Qed.

Lemma setAudioContext_keeps_destination_witness :
  audioContext (instance_after (setAudioContext (VObj 7) example_player)) = VObj 7 /\
  destinationNode (instance_after (setAudioContext (VObj 7) example_player))
  = VObj 101.
Proof.
  destruct (setAudioContext_keeps_destination example_host (VObj 7) example_player)
    as (_ & Hdn & Hac & _).
  split.
  - apply Hac; discriminate.
  - rewrite Hdn. reflexivity.
Defined.

(** ** [play] *)

(** *** Runs in an environment *)

Lemma exec_sequence {A B : Type} (o : oracle) (p : prog A) (k : A -> prog B) (w : world) :
  exec o (sequence p k) w
  = match exec o p w with
    | (w1, inr a) => exec o (k a) w1
    | (w1, inl e) => (w1, inl e)
    end.
Proof.
  revert w. induction p as [a | e | r k' IH | self k' IH]; intros w; cbn [sequence exec].
  - reflexivity.
  - reflexivity.
  - destruct (o (history w) r) as [e | v]; [ reflexivity | apply IH ].
  - apply IH.
Qed.

Lemma exec_heap {A : Type} (o : oracle) (p : prog A) (w : world) :
  heap (fst (exec o p w)) = heap w.
Proof.
  revert w. induction p as [a | e | r k IH | self k IH]; intros w; cbn [exec].
  - reflexivity.
  - reflexivity.
  - destruct (o (history w) r) as [e | v]; [ reflexivity | ].
    rewrite IH. reflexivity.
  - rewrite IH. reflexivity.
Qed.

Lemma exec_all_requests {A : Type} (P : request -> Prop) (o : oracle)
      (p : prog A) (w : world) :
  all_requests P p ->
  exists ext : list request,
    history (fst (exec o p w)) = history w ++ ext /\ Forall P ext.
Proof.
  revert w. induction p as [a | e | r k IH | self k IH]; intros w Hp; cbn [exec].
  - exists []. rewrite app_nil_r. split; [ reflexivity | constructor ].
  - exists []. rewrite app_nil_r. split; [ reflexivity | constructor ].
  - destruct Hp as [Hr Hk].
    destruct (o (history w) r) as [e | v].
    + exists [r]. split; [ reflexivity | constructor; [ exact Hr | constructor ] ].
    + destruct (IH v (record r w) (Hk v)) as (ext & Hext & Hall).
      exists (r :: ext). split.
      * rewrite Hext. cbn [record history]. rewrite <- app_assoc. reflexivity.
      * constructor; assumption.
  - apply (IH (store_t_np self w) Hp).
Qed.

Lemma exec_leaves_t_np {A : Type} (o : oracle) (target : nat) (p : prog A)
      (w w' : world) (a : A) :
  leaves_t_np (t_np w) target p ->
  exec o p w = (w', inr a) ->
  t_np w' = Some target.
Proof.
  revert w. induction p as [a0 | e | r k IH | self k IH]; intros w Hp; cbn [exec].
  - intros H. injection H as <- _. exact Hp.
  - discriminate.
  - destruct (o (history w) r) as [e | v]; [ discriminate | ].
    apply IH. exact (Hp v).
  - apply IH. exact Hp.
Qed.

Lemma exec_on_success {A : Type} (o : oracle) (p : prog A)
      (Q : list request -> A -> Prop) (w w' : world) (a : A) :
  on_success Q p ->
  exec o p w = (w', inr a) ->
  exists ext : list request, history w' = history w ++ ext /\ Q ext a.
Proof.
  revert Q w. induction p as [a0 | e | r k IH | self k IH]; intros Q w Hp; cbn [exec].
  - intros H. injection H as <- <-. exists []. rewrite app_nil_r. split; [ reflexivity | exact Hp ].
  - discriminate.
  - destruct (o (history w) r) as [e | v]; [ discriminate | ].
    intros H. destruct (IH v _ (record r w) (Hp v) H) as (ext & Hext & Hq).
    exists (r :: ext). split; [ | exact Hq ].
    rewrite Hext. cbn [record history]. rewrite <- app_assoc. reflexivity.
  - intros H. exact (IH _ (store_t_np self w) Hp H).
Qed.

Lemma exec_history {A : Type} (o : oracle) (p : prog A) (w : world) :
  exists ext : list request, history (fst (exec o p w)) = history w ++ ext.
Proof.
  revert w. induction p as [a | e | r k IH | self k IH]; intros w; cbn [exec].
  - exists []. rewrite app_nil_r. reflexivity.
  - exists []. rewrite app_nil_r. reflexivity.
  - destruct (o (history w) r) as [e | v].
    + exists [r]. reflexivity.
    + destruct (IH v (record r w)) as (ext & Hext).
      exists (r :: ext). rewrite Hext. cbn [record history].
      rewrite <- app_assoc. reflexivity.
  - apply (IH (store_t_np self w)).
Qed.

(** *** How the three properties pass through a sequence *)

Lemma all_requests_sequence {A B : Type} (P : request -> Prop)
      (p : prog A) (k : A -> prog B) :
  all_requests P p -> (forall a, all_requests P (k a)) ->
  all_requests P (sequence p k).
Proof.
  intros Hp Hk. induction p as [a | e | r k' IH | self k' IH]; cbn [sequence all_requests] in *.
  - apply Hk.
  - exact I.
  - destruct Hp as [Hr Hk']. split; [ exact Hr | ]. intros v. apply IH. apply Hk'.
  - apply IH. exact Hp.
Qed.

Lemma on_success_sequence {A B : Type} (Q : list request -> B -> Prop)
      (p : prog A) (k : A -> prog B) :
  on_success (fun tr1 a => on_success (fun tr2 b => Q (tr1 ++ tr2) b) (k a)) p ->
  on_success Q (sequence p k).
Proof.
  revert Q. induction p as [a | e | r k' IH | self k' IH]; intros Q Hp;
    cbn [sequence on_success] in *.
  - exact Hp.
  - exact I.
  - intros v. apply IH. exact (Hp v).
  - apply IH. exact Hp.
Qed.

Lemma step_member (obj : value) (prop : string) : step_of (Member obj prop) (member obj prop).
Proof. destruct obj; cbn; unfold step_of; eauto. Qed.

Lemma step_assign (obj : value) (prop : string) (v : arg) :
  step_of (Assign obj prop v) (assign obj prop v).
Proof. destruct obj; cbn; unfold step_of; eauto. Qed.

Lemma step_call (f this : value) (args : list arg) :
  step_of (Call f this args) (call f this args).
Proof. destruct f; cbn; unfold step_of; eauto. Qed.

Lemma step_sum (a b : value) : step_of (Sum a b) (sum a b).
Proof.
  unfold sum, step_of.
  destruct (number_of_primitive a), (number_of_primitive b); eauto.
Qed.

Lemma step_times_1000 (h : host) (a : value) (r : request) : step_of r (times_1000 h a).
Proof. unfold times_1000, step_of. destruct (ToNumber h a); eauto. Qed.

Lemma step_when_truthy (v : value) (r : request) : step_of r (when_truthy v (ask r)).
Proof. unfold when_truthy, step_of. destruct (truthy v); eauto. Qed.

Lemma step_ask (r : request) : step_of r (ask r).
Proof. unfold step_of. auto. Qed.

Lemma step_all_requests (P : request -> Prop) (r : request) (p : prog value) :
  step_of r p -> P r -> all_requests P p.
Proof.
  intros [[e ->] | [[v ->] | ->]] Hr; cbn; auto.
Qed.

Lemma step_on_success (Q : list request -> value -> Prop) (r : request) (p : prog value) :
  step_of r p ->
  (forall tr v, tr = [] \/ tr = [r] -> Q tr v) ->
  on_success Q p.
Proof.
  intros [[e ->] | [[v ->] | ->]] Hq; cbn; auto.
Qed.

Lemma asking_member (obj : value) (prop : string) : asking (Member obj prop) (member obj prop).
Proof. destruct obj; cbn; unfold asking; eauto. Qed.

Lemma asking_assign (obj : value) (prop : string) (v : arg) :
  asking (Assign obj prop v) (assign obj prop v).
Proof. destruct obj; cbn; unfold asking; eauto. Qed.

Lemma asking_call (f this : value) (args : list arg) :
  asking (Call f this args) (call f this args).
Proof. destruct f; cbn; unfold asking; eauto. Qed.

Lemma asking_ask (r : request) : asking r (ask r).
Proof. unfold asking. auto. Qed.

Lemma asking_on_success (Q : list request -> value -> Prop) (r : request) (p : prog value) :
  asking r p -> (forall v, Q [r] v) -> on_success Q p.
Proof. intros [[e ->] | ->] Hq; cbn; auto. Qed.

Lemma times_1000_on_success (Q : list request -> value -> Prop) (h : host) (a : value) :
  (forall d, ToNumber h a = inr d -> Q [] (VNum (mul d (of_Z 1000)))) ->
  on_success Q (times_1000 h a).
Proof.
  intros Hq. unfold times_1000. destruct (ToNumber h a) as [e | d]; cbn; auto.
Qed.

Ltac play_step :=
  apply on_success_sequence;
  first
    [ eapply asking_on_success;
      [ solve [ apply asking_member | apply asking_assign
              | apply asking_call | apply asking_ask ]
      | intros ?; cbv beta ]
    | eapply step_on_success;
      [ solve [ apply step_sum | apply step_when_truthy ]
      | intros ? ? ?; cbv beta ]
    | apply times_1000_on_success; intros ? ?; cbv beta ].

Ltac find_in :=
  first [ apply in_or_app; left; left; reflexivity
        | apply in_or_app; right; find_in ].

Lemma play_on_success (h : host) (self : nat) (this : notePlayer) (callback : value) :
  on_success
    (fun ext oscillator =>
       (exists (setTimeout : value) (d : number),
           ToNumber h (duration this) = inr d /\
           In (Call setTimeout VUndefined
                    [Fun (timeout_handler oscillator); Val (VNum (mul d (of_Z 1000)))])
              ext) /\
       In (Assign oscillator "onended" (Fun (ended_handler callback))) ext /\
       length (filter is_timer_call ext) = 1%nat /\
       (exists setTargetAtTime gain reached : value,
           In (Member gain "setTargetAtTime") ext /\
           In (Call setTargetAtTime gain
                    [Val (VNum (of_Z 0)); Val reached;
                     Val (if truthy (release this) then release this else attack this)])
              ext))
    (play h self this callback).
Proof.
  unfold play.
  do 23 play_step.
  cbn [on_success].
  do 4 play_step.
  cbn [on_success].
  split; [ | split; [ | split ] ].
  - do 2 eexists. split; [ eassumption | find_in ].
  - find_in.
  - destruct H as [-> | ->], H0 as [-> | ->], H1 as [-> | ->]; reflexivity.
  - do 3 eexists. split; find_in.
Qed.

Ltac never_step :=
  apply all_requests_sequence;
  [ eapply step_all_requests;
    [ solve [ apply step_member | apply step_assign | apply step_call | apply step_ask
            | apply step_sum | apply step_when_truthy
            | apply (step_times_1000 _ _ (Global EmptyString)) ]
    | reflexivity ]
  | intros ? ].

Lemma play_never_stops (h : host) (self : nat) (this : notePlayer) (callback : value) :
  all_requests (fun r => asks_stop r = false) (play h self this callback).
Proof.
  unfold play.
  do 23 never_step.
  cbn [all_requests].
  do 4 never_step.
  exact I.
Qed.

Lemma step_leaves_t_np {B : Type} (r : request) (p : prog value) (k : value -> prog B)
      (s : option nat) (target : nat) :
  step_of r p -> (forall a, leaves_t_np s target (k a)) ->
  leaves_t_np s target (sequence p k).
Proof.
  intros [[e ->] | [[v ->] | ->]] Hk; cbn; auto.
Qed.

Ltac leaves_step :=
  eapply step_leaves_t_np;
  [ solve [ apply step_member | apply step_assign | apply step_call | apply step_ask
          | apply step_sum | apply step_when_truthy
          | apply (step_times_1000 _ _ (Global EmptyString)) ]
  | intros ? ].

Lemma play_leaves_t_np (h : host) (self : nat) (this : notePlayer) (callback : value)
      (s : option nat) :
  leaves_t_np s self (play h self this callback).
Proof.
  unfold play.
  do 23 leaves_step.
  cbn [leaves_t_np].
  do 4 leaves_step.
  reflexivity.
Qed.

(** X16: a player that a factory returned although its constructor
    failed (null passed for the audio context, or no audio context on a
    host whose AudioContext constructor throws) cannot be played: in any
    environment, on any instance reference and with any callback, play
    throws a TypeError at [this.audioContext.createOscillator] before it
    asks anything of the environment, and leaves [t_np] as it was. *)
Theorem half_built_player_cannot_play (h : host) (ac : value)
        (out : console) (np : notePlayer) :
  (exists noteName, buildFromName h noteName ac = (out, Some np)) \/
  (exists noteKeyNb, buildFromKeyNb h noteKeyNb ac = (out, Some np)) \/
  (exists noteFreq, buildFromFrequency h noteFreq ac = (out, Some np)) ->
  ac = VNull \/ (ac = VUndefined /\ exists e, new_AudioContext h = inl e) ->
  forall (o : oracle) (self : nat) (callback : value) (w : world),
    exec o (play h self np callback) w = (w, inl TypeError).
Proof.
  intros Hfrom Hac o self callback w.
  assert (Hn : exists n, In n getNotesInfo /\ new_notePlayer h n ac = (out, np)).
  { destruct (factory_some_constructed h ac out np) as (Hname & Hkey & Hfreq).
    destruct Hfrom as [[x Hx] | [[x Hx] | [x Hx]]];
      [ exact (Hname x Hx) | exact (Hkey x Hx) | exact (Hfreq x Hx) ]. }
  destruct Hn as (n & _ & Hnew).
  assert (Hfields : verbose np = VBool false /\
                    (audioContext np = VNull \/ audioContext np = VUndefined)).
  { unfold new_notePlayer in Hnew.
    destruct Hac as [-> | [-> [e He]]].
    - cbn [get_destination] in Hnew. injection Hnew as <- <-. split; [ reflexivity | left; reflexivity ].
    - rewrite He in Hnew. injection Hnew as <- <-. split; [ reflexivity | right; reflexivity ]. }
  destruct Hfields as (Hv & Hctx).
  unfold play. rewrite Hv. destruct Hctx as [-> | ->]; reflexivity.
Qed.

Lemma half_built_player_cannot_play_witness :
  exists np : notePlayer,
    snd (buildFromKeyNb example_host (Some (of_Z 49)) VNull) = Some np /\
    exec example_oracle (play example_host 0 np VUndefined) example_world
    = (example_world, inl TypeError).
Proof.
  destruct (buildFromKeyNb example_host (Some (of_Z 49)) VNull) as [out [np | ]] eqn:Hb;
    [ | exfalso; vm_compute in Hb; discriminate Hb ].
  exists np. split; [ reflexivity | ].
  apply (half_built_player_cannot_play example_host VNull out np).
  - right. left. exists (Some (of_Z 49)). exact Hb.
  - left. reflexivity.
Defined.

(** X17: whatever the environment answers, play never looks up the
    [stop] method of any object, whether it returns or throws, and never
    changes an instance.  When it returns the oscillator, [t_np] refers
    to the played instance, and the requests made contain exactly one
    call that hands over the function of the timer, which is the call of
    [setTimeout] with the function closing over that oscillator and the
    delay [ToNumber(duration) * 1000], and the assignment of [onended]
    on that oscillator with the function closing over the callback. *)
Theorem play_defers_stop (o : oracle) (h : host) (self : nat) (this : notePlayer)
        (callback : value) (w : world) :
  (exists ext : list request,
      history (fst (exec o (play h self this callback) w)) = history w ++ ext /\
      Forall (fun r => asks_stop r = false) ext) /\
  heap (fst (exec o (play h self this callback) w)) = heap w /\
  (forall (w' : world) (oscillator : value),
      exec o (play h self this callback) w = (w', inr oscillator) ->
      t_np w' = Some self /\
      exists (ext : list request) (setTimeout : value) (d : number),
        history w' = history w ++ ext /\
        ToNumber h (duration this) = inr d /\
        In (Call setTimeout VUndefined
                 [Fun (timeout_handler oscillator); Val (VNum (mul d (of_Z 1000)))])
           ext /\
        length (filter is_timer_call ext) = 1%nat /\
        In (Assign oscillator "onended" (Fun (ended_handler callback))) ext).
Proof.
  split; [ | split ].
  - apply exec_all_requests. apply play_never_stops.
  - apply exec_heap.
  - intros w' oscillator Hrun. split.
    + exact (exec_leaves_t_np o self _ w w' oscillator (play_leaves_t_np h self this callback _) Hrun).
    + destruct (exec_on_success o _ _ w w' oscillator (play_on_success h self this callback) Hrun)
        as (ext & Hext & (sT & d & Hd & Hcall) & Hended & Hone & _).
      exists ext, sT, d. repeat split; assumption.
Qed.

Lemma play_defers_stop_witness :
  snd (exec example_oracle (play example_host 0 example_player VUndefined) example_world)
  = inr (VObj 1001) /\
  t_np (fst (exec example_oracle (play example_host 0 example_player VUndefined)
                  example_world)) = Some 0%nat.
Proof.
  assert (Hrun : snd (exec example_oracle (play example_host 0 example_player VUndefined)
                           example_world) = inr (VObj 1001))
    by (vm_compute; reflexivity).
  split; [ exact Hrun | ].
  destruct (play_defers_stop example_oracle example_host 0 example_player VUndefined
                             example_world) as (_ & _ & Hok).
  apply (Hok _ (VObj 1001)).
  rewrite <- Hrun. apply surjective_pairing.
Defined.

(** X18: [t_np] is one global shared by every play.  After two plays
    that return, on the instances [first] and then [second], [t_np]
    refers to the second, so the function of the first timer, when it is
    run, reads [verbose] and [name] from the second instance and stops
    the first oscillator; when the second instance is verbose, the first
    thing it does is to log that the second note has finished
    playing. *)
Theorem timeout_reads_last_played (o : oracle) (h : host) (first second : nat)
        (callback1 callback2 : value) (w w1 w2 : world)
        (oscillator1 oscillator2 : value) (np2 : notePlayer) :
  play_at o h first callback1 w = (w1, inr oscillator1) ->
  play_at o h second callback2 w1 = (w2, inr oscillator2) ->
  nth_error (heap w) second = Some np2 ->
  t_np w2 = Some second /\
  heap w2 = heap w /\
  fire o (timeout_handler oscillator1) w2 = exec o (timeout_body np2 oscillator1) w2 /\
  (truthy (verbose np2) = true ->
   exists rest : list request,
     history (fst (fire o (timeout_handler oscillator1) w2))
     = history w2 ++ console_log (has_finished (name np2)) :: rest).
Proof.
  intros H1 H2 Hnp2.
  unfold play_at in H1, H2.
  destruct (nth_error (heap w) first) as [np1 | ] eqn:Hnp1; [ | discriminate H1 ].
  assert (Hheap1 : heap w1 = heap w).
  { pose proof (exec_heap o (play h first np1 callback1) w) as Hh.
    rewrite H1 in Hh. exact Hh. }
  rewrite Hheap1, Hnp2 in H2.
  assert (Hheap2 : heap w2 = heap w).
  { pose proof (exec_heap o (play h second np2 callback2) w1) as Hh.
    rewrite H2 in Hh. cbn [fst] in Hh. rewrite Hh. exact Hheap1. }
  assert (Ht : t_np w2 = Some second).
  { exact (exec_leaves_t_np o second _ w1 w2 oscillator2
             (play_leaves_t_np h second np2 callback2 _) H2). }
  assert (Hfire : fire o (timeout_handler oscillator1) w2
                  = exec o (timeout_body np2 oscillator1) w2).
  { unfold fire. rewrite Ht, Hheap2, Hnp2. reflexivity. }
  repeat split; [ exact Ht | exact Hheap2 | exact Hfire | ].
  intros Hverbose. rewrite Hfire. unfold timeout_body, when_truthy. rewrite Hverbose.
  cbn [ask sequence exec].
  destruct (o (history w2) (console_log (has_finished (name np2)))) as [e | v].
  - exists []. reflexivity.
  - match goal with
    | |- context [exec o ?p ?w0] => destruct (exec_history o p w0) as (ext & Hext)
    end.
    exists ext. rewrite Hext. cbn [record history]. rewrite <- app_assoc. reflexivity.
Qed.

Lemma timeout_reads_last_played_witness :
  t_np (fst (play_at example_oracle example_host 1 VUndefined
               (fst (play_at example_oracle example_host 0 VUndefined example_world))))
  = Some 1%nat.
Proof.
  assert (H1 : snd (play_at example_oracle example_host 0 VUndefined example_world)
               = inr (VObj 1001)) by (vm_compute; reflexivity).
  assert (H2 : snd (play_at example_oracle example_host 1 VUndefined
                      (fst (play_at example_oracle example_host 0 VUndefined
                              example_world)))
               = inr (VObj 1024)) by (vm_compute; reflexivity).
  apply (timeout_reads_last_played example_oracle example_host 0 1 VUndefined VUndefined
           example_world
           (fst (play_at example_oracle example_host 0 VUndefined example_world))
           (fst (play_at example_oracle example_host 1 VUndefined
                   (fst (play_at example_oracle example_host 0 VUndefined example_world))))
           (VObj 1001) (VObj 1024) example_A4).
  - rewrite <- H1. apply surjective_pairing.
  - rewrite <- H2. apply surjective_pairing.
  - reflexivity.
Defined.

(** X19: for a player returned by a factory, after one call of
    setRelease with any argument that returns, a play that returns has
    called [setTargetAtTime] of the gain with target 0 and a time
    constant that is truthy (so neither 0 nor NaN): the argument of
    setRelease, the default release 0.1, or, when the stored release is
    falsy, the attack 0.3. *)
Theorem play_time_constant_truthy (h : host) (ac : value) (out : console)
        (np this' : notePlayer) (n : value)
        (o : oracle) (self : nat) (callback : value) (w w' : world) (oscillator : value) :
  (exists noteName, buildFromName h noteName ac = (out, Some np)) \/
  (exists noteKeyNb, buildFromKeyNb h noteKeyNb ac = (out, Some np)) \/
  (exists noteFreq, buildFromFrequency h noteFreq ac = (out, Some np)) ->
  setRelease h n np = Normal this' ->
  exec o (play h self this' callback) w = (w', inr oscillator) ->
  exists (ext : list request) (setTargetAtTime gain reached time_constant : value),
    history w' = history w ++ ext /\
    In (Member gain "setTargetAtTime") ext /\
    In (Call setTargetAtTime gain
             [Val (VNum (of_Z 0)); Val reached; Val time_constant]) ext /\
    truthy time_constant = true /\
    (time_constant = n \/ time_constant = VNum (decimal 1 1) \/
     time_constant = VNum (decimal 3 1)).
Proof.
  intros Hfrom Hset Hrun.
  assert (Hn : exists n, In n getNotesInfo /\ new_notePlayer h n ac = (out, np)).
  { destruct (factory_some_constructed h ac out np) as (Hname & Hkey & Hfreq).
    destruct Hfrom as [[x Hx] | [[x Hx] | [x Hx]]];
      [ exact (Hname x Hx) | exact (Hkey x Hx) | exact (Hfreq x Hx) ]. }
  destruct Hn as (rec & _ & Hnew).
  pose proof (new_notePlayer_defaults h rec ac) as Hd. rewrite Hnew in Hd.
  destruct Hd as (_ & _ & _ & Hattack & Hrelease). cbn [snd] in Hattack, Hrelease.
  assert (Hfields : attack this' = VNum (decimal 3 1) /\
                    (release this' = n \/ release this' = VNum (decimal 1 1))).
  { unfold setRelease in Hset.
    destruct (undefined_or_whole h n) as [e | keep]; [ discriminate Hset | ].
    injection Hset as <-. cbn [attack release set_release].
    split; [ exact Hattack | ].
    destruct keep; [ right; exact Hrelease | left; reflexivity ]. }
  destruct Hfields as (Ha & Hr).
  destruct (exec_on_success o _ _ w w' oscillator (play_on_success h self this' callback) Hrun)
    as (ext & Hext & _ & _ & _ & (f & gain & reached & Hmember & Hcall)).
  exists ext, f, gain, reached,
    (if truthy (release this') then release this' else attack this').
  split; [ exact Hext | ]. split; [ exact Hmember | ]. split; [ exact Hcall | ].
  assert (H03 : truthy (VNum (decimal 3 1)) = true) by (vm_compute; reflexivity).
  destruct (truthy (release this')) eqn:Ht.
  - split; [ exact Ht | ]. destruct Hr as [Hr | Hr]; [ left | right; left ]; exact Hr.
  - split; [ rewrite Ha; exact H03 | ]. right. right. exact Ha.
Qed.

Lemma play_time_constant_truthy_witness :
  exists (ext : list request) (setTargetAtTime gain reached time_constant : value),
    In (Call setTargetAtTime gain
             [Val (VNum (of_Z 0)); Val reached; Val time_constant]) ext /\
    truthy time_constant = true.
Proof.
  pose (this' := set_release (VNum NaN) example_A4).
  assert (Hrun : snd (exec example_oracle (play example_host 1 this' VUndefined) example_world)
                 = inr (VObj 1001)) by (vm_compute; reflexivity).
  destruct (play_time_constant_truthy example_host VUndefined [] example_A4 this' (VNum NaN)
              example_oracle 1 VUndefined example_world
              (fst (exec example_oracle (play example_host 1 this' VUndefined) example_world))
              (VObj 1001))
    as (ext & f & gain & reached & tc & _ & _ & Hcall & Ht & _).
  - right. left. exists (Some (of_Z 49)). vm_compute. reflexivity.
  - vm_compute. reflexivity.
  - rewrite <- Hrun. apply surjective_pairing.
  - exists ext, f, gain, reached, tc. split; assumption.
Defined.

(** X20: [verbose] gates what play logs.  When [this.verbose] is falsy,
    no request of play is a [console.log]; when it is truthy, the first
    request is the [console.log] of the line announcing [this.name] and
    [this.duration], and no later request is one, whether play returns
    or throws. *)
Theorem verbose_gates_logging (o : oracle) (h : host) (self : nat) (this : notePlayer)
        (callback : value) (w : world) :
  (truthy (verbose this) = false ->
   exists ext : list request,
     history (fst (exec o (play h self this callback) w)) = history w ++ ext /\
     Forall (fun r => is_log r = false) ext) /\
  (truthy (verbose this) = true ->
   exists rest : list request,
     history (fst (exec o (play h self this callback) w))
     = history w ++ console_log (will_play (name this) (duration this)) :: rest /\
     Forall (fun r => is_log r = false) rest).
Proof.
  split; intros Hverbose.
  - apply exec_all_requests.
    unfold play. unfold when_truthy at 1. rewrite Hverbose. cbn [sequence].
    do 22 never_step. cbn [all_requests]. do 4 never_step. exact I.
  - unfold play. unfold when_truthy at 1. rewrite Hverbose.
    unfold ask at 1. cbn [sequence exec].
    destruct (o (history w) (console_log (will_play (name this) (duration this))))
      as [e | v].
    + exists []. split; [ reflexivity | constructor ].
    + match goal with
      | |- context [exec o ?p ?w0] =>
          destruct (exec_all_requests (fun r => is_log r = false) o p w0)
            as (ext & Hext & Hall)
      end.
      * do 22 never_step. cbn [all_requests]. do 4 never_step. exact I.
      * exists ext. split; [ | exact Hall ].
        rewrite Hext. cbn [record history]. rewrite <- app_assoc. reflexivity.
Qed.

Lemma verbose_gates_logging_witness :
  exists rest : list request,
    history (fst (exec example_oracle
                       (play example_host 0 (set_verbose (VBool true) example_player)
                             VUndefined)
                       example_world))
    = console_log (will_play (VStr "A4") (VNum (of_Z 2))) :: rest /\
    Forall (fun r => is_log r = false) rest.
Proof.
  destruct (verbose_gates_logging example_oracle example_host 0
              (set_verbose (VBool true) example_player) VUndefined example_world)
    as (_ & Hloud).
  exact (Hloud eq_refl).
Defined.
